(** * The task-list view and the validation helpers of the scheduler dashboard

    A shallow embedding of
    - [src/frontend/src/utils/validate.js]: the three regular-expression
      predicates [isExternal], [validateEmail] and [validatePath];
    - the Task view (the single-file component that follows the user API
      wrappers in [src/frontend/src/api/user.js]): the two status filters,
      the component data, its lifecycle hooks and its methods.

    JavaScript data is kept as the code has it: JSON-like values, objects as
    finite maps from property names to values, strings as sequences of
    UTF-16 code units for the regular expressions.  The browser (timers, the
    settling of HTTP promises, the notification service) is an explicit part
    of the state the component runs in. *)

From Stdlib Require Import Ascii String ZArith Lia.
From stdpp Require Import gmap strings list pretty.

Set Warnings "-register-all,-abstract-large-number".
Set Default Proof Using "Type".

Local Open Scope Z_scope.

(* ===================================================================== *)
(** ** JavaScript values *)
(* ===================================================================== *)

(** The data that flows through the view is decoded JSON: the response
    envelope, the rows of the table, the uuid handed to the delete request.
    Numbers are the integer ones (page numbers, counts, timestamps, status
    codes). *)
Inductive value :=
| VUndefined
| VNull
| VBool (b : bool)
| VNum (z : Z)
| VStr (s : string)
| VArr (l : list value)
| VObj (o : gmap string value).

(** An object that the view itself builds: its own properties and its
    prototype.  (The objects decoded from JSON, [VObj], all have
    [Object.prototype] as prototype.) *)
Inductive prototype :=
| ObjectPrototype
| NullPrototype
| Inherit (parent : value).

Record object := { own : gmap string value; proto : prototype }.

(** [Number::toString] on an integer.  Below 10^21 the result is a decimal
    numeral; from 10^21 on the engine switches to the exponent notation
    [d.ddde+n].  The engine prints the shortest digit string that reads back
    as the same double, followed by zeros; the model prints the digits of
    [z] itself.  The two differ only in the digits of numbers above 2^53,
    never in the shape: an optional sign, digits, and in the exponent
    notation an optional fraction, [e+] and the exponent. *)
Fixpoint strip_zeros (s : string) : string :=
  match s with
  | EmptyString => EmptyString
  | String c rest =>
      match strip_zeros rest with
      | EmptyString => if Ascii.eqb c "0"%char then EmptyString else String c EmptyString
      | rest' => String c rest'
      end
  end.

Definition exponent_notation (z : Z) : string :=
  let digits := pretty (Z.abs z) in
  let exponent := pretty (Z.of_nat (String.length digits) - 1) in
  (if z <? 0 then "-" else EmptyString) +:+
  match strip_zeros digits with
  | EmptyString => EmptyString
  | String d EmptyString => String d ("e+" +:+ exponent)
  | String d frac => String d ("." +:+ frac +:+ "e+" +:+ exponent)
  end.

Definition Number_toString (z : Z) : string :=
  if Z.abs z <? 10 ^ 21 then pretty z else exponent_notation z.

(* ===================================================================== *)
(** ** The status filters *)
(* ===================================================================== *)

Module Filters.

(** What a property read [o[k]] on an object literal of strings can give:
    the string stored under [k], a member inherited from [Object.prototype]
    (object literals have it as their prototype), or [undefined]. *)
Inductive lookup_result :=
| Undefined
| Str (s : string)
| Inherited (name : string).

Definition Object_prototype_keys : list string :=
  [ "constructor"; "hasOwnProperty"; "isPrototypeOf"; "propertyIsEnumerable";
    "toLocaleString"; "toString"; "valueOf"; "__proto__";
    "__defineGetter__"; "__defineSetter__"; "__lookupGetter__";
    "__lookupSetter__" ].

Definition get (o : gmap string string) (k : string) : lookup_result :=
  match o !! k with
  | Some s => Str s
  | None => if bool_decide (k ∈ Object_prototype_keys) then Inherited k else Undefined
  end.

Definition statusTypeMap : gmap string string :=
  {[ "0" := "info";
     "1" := EmptyString;
     "2" := "success";
     "3" := "danger";
     "4" := "info";
     "5" := "warning";
     "6" := "danger";
     "7" := "warning";
     "8" := "danger" ]}.

Definition statusMap : gmap string string :=
  {[ "0" := "Scheduled";
     "1" := "Running";
     "2" := "Succeeded";
     "3" := "Failed";
     "4" := "Deleting";
     "5" := "Pending";
     "6" := "TLE";
     "7" := "Waiting";
     "8" := "MLE" ]}.

(** The keys of the two maps. *)
Definition status_keys : list string :=
  [ "0"; "1"; "2"; "3"; "4"; "5"; "6"; "7"; "8" ].

(** [statusTypeMap[status]] and [statusMap[status]]: the status code is a
    number, the property key is its string. *)
Definition statusTypeFilter (status : Z) : lookup_result :=
  get statusTypeMap (Number_toString status).

Definition statusFilter (status : Z) : lookup_result :=
  get statusMap (Number_toString status).

End Filters.

(* ===================================================================== *)
(** ** Regular expressions *)
(* ===================================================================== *)

(** The fragment of ECMAScript regular expressions that [validate.js] uses:
    characters, [.], character classes, sequence, alternation, greedy
    quantifiers and the two anchors; no flags, no back-references, no
    look-around.  Parentheses only group: without back-references a capture
    has no effect on whether [test] succeeds.

    The matcher follows the continuation-passing matchers of the language
    specification: a matcher takes the rest of the input and a continuation
    and answers whether the whole match can be completed. *)
Module Regex.

(** A string is a sequence of UTF-16 code units. *)
Definition char := N.

Definition ch (a : ascii) : char := N_of_ascii a.

Definition str (s : string) : list char := ch <$> list_ascii_of_string s.

(** The double quote, written by its code. *)
Definition dquote : char := 34%N.

Definition in_list (c : char) (l : list char) : bool :=
  existsb (N.eqb c) l.

(** LineTerminator: LF, CR, LS, PS. *)
Definition line_terminator (c : char) : bool :=
  in_list c [10; 13; 8232; 8233]%N.

(** The class [\s]: WhiteSpace and LineTerminator. *)
Definition white_space (c : char) : bool :=
  in_list c [9; 11; 12; 32; 160; 5760; 8239; 8287; 12288; 65279]%N
  || ((8192 <=? c) && (c <=? 8202))%N
  || line_terminator c.

Inductive class_item :=
| One (c : char)
| Range (lo hi : char)
| Space.

Definition item_mem (c : char) (i : class_item) : bool :=
  match i with
  | One a => N.eqb c a
  | Range lo hi => ((lo <=? c) && (c <=? hi))%N
  | Space => white_space c
  end.

Inductive regex :=
| Empty
| Char (a : char)
| Any
| Class (negated : bool) (items : list class_item)
| Seq (r1 r2 : regex)
| Alt (r1 r2 : regex)
| Repeat (r : regex) (min : nat) (max : option nat)
| Bol
| Eol.

Definition Star (r : regex) : regex := Repeat r 0 None.
Definition Plus (r : regex) : regex := Repeat r 1 None.
Definition Opt (r : regex) : regex := Repeat r 0 (Some 1%nat).

(** A run of literal characters. *)
Fixpoint lit (l : list char) : regex :=
  match l with
  | [] => Empty
  | [a] => Char a
  | a :: l' => Seq (Char a) (lit l')
  end.

(** Whether one character is let through by an atom. *)
Definition atom (p : char → bool) (x : list char) (c : list char → bool) : bool :=
  match x with
  | [] => false
  | a :: y => p a && c y
  end.

Definition matcher_fn := list char → (list char → bool) → bool.

Definition dec_max (max : option nat) : option nat := Nat.pred <$> max.

(** RepeatMatcher with [min = 0], greedy: one more iteration is tried
    first, then the continuation.  An iteration that consumes nothing is
    rejected, so every further iteration shortens the rest of the input;
    [fuel] counts the characters that are left (it starts at the length of
    the rest), and at [0] the rest is empty, where no iteration can consume
    anything. *)
Fixpoint repeat_greedy (m : matcher_fn) (fuel : nat) (max : option nat)
    (x : list char) (c : list char → bool) : bool :=
  match max with
  | Some O => c x
  | _ =>
      match fuel with
      | O => m x (λ _, false) || c x
      | S fuel' =>
          m x (λ y, if (length y =? length x)%nat then false
                    else repeat_greedy m fuel' (dec_max max) y c)
          || c x
      end
  end.

(** RepeatMatcher: while [min] is positive an iteration is mandatory. *)
Fixpoint RepeatMatcher (m : matcher_fn) (min : nat) (max : option nat)
    (x : list char) (c : list char → bool) : bool :=
  match max with
  | Some O => c x
  | _ =>
      match min with
      | S min' => m x (λ y, RepeatMatcher m min' (dec_max max) y c)
      | O => repeat_greedy m (length x) max x c
      end
  end.

Section Matcher.

(** The whole input; [x] below is what is left of it, so the current index
    is [length input - length x]. *)
Variable input : list char.

Fixpoint matcher (r : regex) (x : list char) (c : list char → bool) : bool :=
  match r with
  | Empty => c x
  | Char a => atom (λ b, N.eqb b a) x c
  | Any => atom (λ b, negb (line_terminator b)) x c
  | Class negated items =>
      atom (λ b, xorb negated (existsb (item_mem b) items)) x c
  | Seq r1 r2 => matcher r1 x (λ y, matcher r2 y c)
  | Alt r1 r2 => matcher r1 x c || matcher r2 x c
  | Repeat r min max => RepeatMatcher (matcher r) min max x c
  | Bol => (length x =? length input)%nat && c x
  | Eol => match x with [] => c x | _ => false end
  end.

End Matcher.

(** [RegExp.prototype.test] for a pattern without the [g] and [y] flags:
    the match is attempted at index 0, 1, ..., [length input], and the
    result is whether one attempt succeeds. *)
Definition test (r : regex) (input : list char) : bool :=
  existsb (λ i, matcher input r (drop i input) (λ _, true))
          (seq 0 (S (length input))).

(** The characters an expression can consume. *)
Fixpoint consumes (r : regex) (b : char) : bool :=
  match r with
  | Empty | Bol | Eol => false
  | Char a => N.eqb b a
  | Any => negb (line_terminator b)
  | Class negated items => xorb negated (existsb (item_mem b) items)
  | Seq r1 r2 | Alt r1 r2 => consumes r1 b || consumes r2 b
  | Repeat r _ _ => consumes r b
  end.

(** Whether every way through an expression ends with [$]. *)
Fixpoint ends_anchored (r : regex) : bool :=
  match r with
  | Eol => true
  | Seq _ r2 => ends_anchored r2
  | Alt r1 r2 => ends_anchored r1 && ends_anchored r2
  | _ => false
  end.

(** A matcher is sound for a set of characters when every successful match
    consumes a prefix of such characters and completes with the
    continuation on the rest. *)
Definition sound (q : char → bool) (m : matcher_fn) : Prop :=
  ∀ x c, m x c = true →
    ∃ pre y, x = pre ++ y ∧ Forall (λ b, q b = true) pre ∧ c y = true.

(** A matcher is local when it calls its continuation only on what is left
    of its input. *)
Definition local (m : matcher_fn) : Prop :=
  ∀ x c c', (∀ y, (length y ≤ length x)%nat → c y = c' y) → m x c = m x c'.

End Regex.

(* ===================================================================== *)
(** ** [utils/validate.js] *)
(* ===================================================================== *)

Module Validate.
Import Regex.

(** [/^(https?:|mailto:|tel:)/] *)
Definition isExternal_re : regex :=
  Seq Bol
      (Alt (Seq (lit (str "http")) (Seq (Opt (Char (ch "s"))) (Char (ch ":"))))
      (Alt (lit (str "mailto:"))
           (lit (str "tel:")))).

Definition isExternal (path : list char) : bool := test isExternal_re path.

(** The atom of the local part, [A] below: the negated class of
    [< > ( ) [ ] \ . , ; :], the class [\s], [@] and the double quote. *)
Definition email_atom : regex :=
  Class true
    [ One (ch "<"); One (ch ">"); One (ch "("); One (ch ")"); One (ch "[");
      One (ch "]"); One (ch "\"); One (ch "."); One (ch ","); One (ch ";");
      One (ch ":"); Space; One (ch "@"); One dquote ].

Definition digit : regex := Class false [ Range (ch "0") (ch "9") ].

(** [[a-zA-Z\-0-9]] *)
Definition label_char : regex :=
  Class false [ Range (ch "a") (ch "z"); Range (ch "A") (ch "Z"); One (ch "-");
                Range (ch "0") (ch "9") ].

Definition letter : regex :=
  Class false [ Range (ch "a") (ch "z"); Range (ch "A") (ch "Z") ].

(** The local part: [A+ ( \. A+ )*], or a quoted string [Q .+ Q] with [Q]
    the double quote. *)
Definition email_local : regex :=
  Alt (Seq (Plus email_atom) (Star (Seq (Char (ch ".")) (Plus email_atom))))
      (Seq (Char dquote) (Seq (Plus Any) (Char dquote))).

(** [[0-9]{1,3}] *)
Definition octet : regex := Repeat digit 1 (Some 3%nat).

(** The domain: a bracketed dotted quad
    [\[ [0-9]{1,3} \. [0-9]{1,3} \. [0-9]{1,3} \. [0-9]{1,3} ]], or
    [( [a-zA-Z\-0-9]+ \. )+ [a-zA-Z]{2,}]. *)
Definition email_domain : regex :=
  Alt (Seq (Char (ch "["))
      (Seq octet (Seq (Char (ch "."))
      (Seq octet (Seq (Char (ch "."))
      (Seq octet (Seq (Char (ch "."))
      (Seq octet (Char (ch "]"))))))))))
      (Seq (Plus (Seq (Plus label_char) (Char (ch "."))))
           (Repeat letter 2 None)).

(** [^ local @ domain $] *)
Definition validateEmail_re : regex :=
  Seq Bol (Seq email_local (Seq (Char (ch "@")) (Seq email_domain Eol))).

Definition validateEmail (email : list char) : bool := test validateEmail_re email.

(** The negated class of [\ / : * ? < > |] and the double quote. *)
Definition path_char : regex :=
  Class true
    [ One (ch "\"); One (ch "/"); One (ch ":"); One (ch "*"); One (ch "?");
      One dquote; One (ch "<"); One (ch ">"); One (ch "|") ].

(** [^ \/? ( P+ \/? )+ $] with [P] the class [path_char]. *)
Definition validatePath_re : regex :=
  Seq Bol
      (Seq (Opt (Char (ch "/")))
      (Seq (Plus (Seq (Plus path_char) (Opt (Char (ch "/")))))
           Eol)).

Definition validatePath (path : list char) : bool := test validatePath_re path.

(** The characters [validatePath] refuses: [* ? < > | : \] and the double
    quote. *)
Definition forbidden_in_path : list char :=
  [ ch "*"; ch "?"; dquote; ch "<"; ch ">";
    ch "|"; ch ":"; ch "\" ].

End Validate.

(* ===================================================================== *)
(** ** The Task view *)
(* ===================================================================== *)

(** The component data, as returned by [data()].  [rules] is a constant
    table of form rules that no method or hook of this component reads; it
    is left out. *)
Module data.

Record t := mk {
  tableKey : Z;
  list : value;
  total : value;
  listLoading : bool;
  deleteDialogLoading : bool;
  pageSizes : Datatypes.list Z;
  listQuery_page : value;
  listQuery_limit : value;
  selectedData : object;
  deleteDialogVisible : bool
}.

Definition set_list (v : value) (d : t) : t :=
  mk (tableKey d) v (total d) (listLoading d) (deleteDialogLoading d)
     (pageSizes d) (listQuery_page d) (listQuery_limit d) (selectedData d)
     (deleteDialogVisible d).

Definition set_total (v : value) (d : t) : t :=
  mk (tableKey d) (list d) v (listLoading d) (deleteDialogLoading d)
     (pageSizes d) (listQuery_page d) (listQuery_limit d) (selectedData d)
     (deleteDialogVisible d).

Definition set_listLoading (b : bool) (d : t) : t :=
  mk (tableKey d) (list d) (total d) b (deleteDialogLoading d)
     (pageSizes d) (listQuery_page d) (listQuery_limit d) (selectedData d)
     (deleteDialogVisible d).

Definition set_deleteDialogLoading (b : bool) (d : t) : t :=
  mk (tableKey d) (list d) (total d) (listLoading d) b
     (pageSizes d) (listQuery_page d) (listQuery_limit d) (selectedData d)
     (deleteDialogVisible d).

Definition set_listQuery_page (v : value) (d : t) : t :=
  mk (tableKey d) (list d) (total d) (listLoading d) (deleteDialogLoading d)
     (pageSizes d) v (listQuery_limit d) (selectedData d)
     (deleteDialogVisible d).

Definition set_listQuery_limit (v : value) (d : t) : t :=
  mk (tableKey d) (list d) (total d) (listLoading d) (deleteDialogLoading d)
     (pageSizes d) (listQuery_page d) v (selectedData d)
     (deleteDialogVisible d).

Definition set_selectedData (o : object) (d : t) : t :=
  mk (tableKey d) (list d) (total d) (listLoading d) (deleteDialogLoading d)
     (pageSizes d) (listQuery_page d) (listQuery_limit d) o
     (deleteDialogVisible d).

Definition set_deleteDialogVisible (b : bool) (d : t) : t :=
  mk (tableKey d) (list d) (total d) (listLoading d) (deleteDialogLoading d)
     (pageSizes d) (listQuery_page d) (listQuery_limit d) (selectedData d)
     b.

(** [data()] *)
Definition init : t :=
  {| tableKey := 0;
     list := VNull;
     total := VNum 0;
     listLoading := true;
     deleteDialogLoading := false;
     pageSizes := [25];
     listQuery_page := VNum 1;
     listQuery_limit := VNum 25;
     selectedData := {| own := {[ "uuid" := VStr EmptyString ]};
                        proto := ObjectPrototype |};
     deleteDialogVisible := false |}.

End data.

Module View.

(** *** The browser around the component *)

(** An HTTP request handed to the client. *)
Inductive request :=
| GetTaskList (page : value)
| DeleteTask (uuid : value).

(** The callbacks chained on a request's promise with [.then(..).finally(..)]:
    the pair written in [getList] or the pair written in [deleteTask]. *)
Inductive callbacks := OnList | OnDelete.

(** How a promise settles. *)
Inductive settlement :=
| Fulfilled (response : value)
| Rejected (reason : value).

(** An interval timer.  The one callback this component registers is
    [this.getList]; the timer keeps when it fires next and its delay, in
    milliseconds. *)
Record timer := { due : Z; delay : Z }.

(** The argument of [this.$message]. *)
Record notice := { message : string; type : string }.

Record World := {
  vm : data.t;                        (* the component's reactive data *)
  polling : option nat;               (* [this.polling], unset before [created] *)
  now : Z;                            (* the clock, in milliseconds *)
  timers : list (nat * timer);        (* the active intervals, by handle *)
  next_handle : nat;                  (* the next handle [setInterval] returns *)
  sent : list (Z * request);          (* every request issued, with its time *)
  pending : gmap nat callbacks;       (* unsettled promises, by index in [sent] *)
  messages : list notice;             (* the notifications shown *)
  opened : list value                 (* the log windows opened, by uuid *)
}.

Definition set_vm (d : data.t) (w : World) : World :=
  Build_World d (polling w) (now w) (timers w) (next_handle w) (sent w)
              (pending w) (messages w) (opened w).

Definition update (f : data.t → data.t) (w : World) : World := set_vm (f (vm w)) w.

Definition set_polling (p : option nat) (w : World) : World :=
  Build_World (vm w) p (now w) (timers w) (next_handle w) (sent w)
              (pending w) (messages w) (opened w).

Definition set_now (t : Z) (w : World) : World :=
  Build_World (vm w) (polling w) t (timers w) (next_handle w) (sent w)
              (pending w) (messages w) (opened w).

Definition set_timers (ts : list (nat * timer)) (w : World) : World :=
  Build_World (vm w) (polling w) (now w) ts (next_handle w) (sent w)
              (pending w) (messages w) (opened w).

Definition set_next_handle (h : nat) (w : World) : World :=
  Build_World (vm w) (polling w) (now w) (timers w) h (sent w)
              (pending w) (messages w) (opened w).

Definition set_sent (l : list (Z * request)) (w : World) : World :=
  Build_World (vm w) (polling w) (now w) (timers w) (next_handle w) l
              (pending w) (messages w) (opened w).

Definition set_pending (p : gmap nat callbacks) (w : World) : World :=
  Build_World (vm w) (polling w) (now w) (timers w) (next_handle w) (sent w)
              p (messages w) (opened w).

Definition set_messages (l : list notice) (w : World) : World :=
  Build_World (vm w) (polling w) (now w) (timers w) (next_handle w) (sent w)
              (pending w) l (opened w).

Definition set_opened (l : list value) (w : World) : World :=
  Build_World (vm w) (polling w) (now w) (timers w) (next_handle w) (sent w)
              (pending w) (messages w) l.

(** *** Code that runs to completion or throws *)

Inductive error := TypeError.

Inductive result (A : Type) :=
| Return (a : A)
| Throw (e : error).
Arguments Return {A} a.
Arguments Throw {A} e.

(** A piece of component code: it changes the world and returns or throws;
    what it changed before throwing stays changed. *)
Definition M (A : Type) : Type := World → result A * World.

Definition ret {A} (a : A) : M A := λ w, (Return a, w).

Definition bind {A B} (m : M A) (k : A → M B) : M B :=
  λ w, match m w with
       | (Return a, w') => k a w'
       | (Throw e, w') => (Throw e, w')
       end.

Notation "x ←' m ; k" := (bind m (λ x, k))
  (at level 20, m at level 100, k at level 200, right associativity,
   format "x  ←'  m ;  '/' k").
Notation "m ;;' k" := (bind m (λ _, k))
  (at level 100, k at level 200, right associativity, format "m  ;;'  '/' k").

(** Reading a field of [this] or of the browser. *)
Definition read {A} (f : World → A) : M A := λ w, (Return (f w), w).

(** A statement that only assigns. *)
Definition modify (f : World → World) : M unit := λ w, (Return (), f w).

(** Running a callback whose exceptions nobody observes. *)
Definition exec {A} (m : M A) (w : World) : World := (m w).2.

(** The properties the view reads from response and row data. *)
Inductive prop := P_payload | P_entry | P_count | P_uuid.

Definition prop_name (p : prop) : string :=
  match p with
  | P_payload => "payload"
  | P_entry => "entry"
  | P_count => "count"
  | P_uuid => "uuid"
  end.

(** The property read [v.p].  On [undefined] and [null] it throws a
    TypeError; on an object it is the stored value, or [undefined]; on the
    other values it is [undefined], as none of the four names is a property
    of a built-in prototype. *)
Definition getp (v : value) (p : prop) : result value :=
  match v with
  | VUndefined | VNull => Throw TypeError
  | VObj o => Return (default VUndefined (o !! prop_name p))
  | _ => Return VUndefined
  end.

Definition get (v : value) (p : prop) : M value := λ w, (getp v p, w).

(** [Object.assign({}, source)], the one form the view uses.  Every own
    property of [source] is written on the fresh object by an ordinary
    assignment.  For the key [__proto__] the assignment runs the setter that
    the fresh object inherits from [Object.prototype]: no own property is
    made, and the prototype becomes the value when that is an object, an
    array or [null]; a primitive leaves it alone.  Every other key becomes
    an own property. *)
Definition Object_assign (source : gmap string value) : object :=
  {| own := delete "__proto__" source;
     proto := match source !! "__proto__" with
              | Some (VObj parent) => Inherit (VObj parent)
              | Some (VArr l) => Inherit (VArr l)
              | Some VNull => NullPrototype
              | _ => ObjectPrototype
              end |}.

(** The property read [o.p] on such an object: the own property, else the
    one of the prototype.  A parent decoded from JSON has [Object.prototype]
    (an array [Array.prototype]) above it, where none of the four names is
    defined. *)
Definition object_get (o : object) (p : prop) : value :=
  match own o !! prop_name p with
  | Some v => v
  | None =>
      match proto o with
      | Inherit (VObj parent) => default VUndefined (parent !! prop_name p)
      | _ => VUndefined
      end
  end.

(** *** The HTTP client and the platform *)

(** The request wrappers of [@/api/task], which the view imports; their
    file is not part of the sources. *)
Module api.

(** Modelled from the spec: what a request wrapper of [@/api/task] does.  A
    call hands one request to the HTTP client (the list endpoint with the
    page as query, the task endpoint with the uuid) and returns a promise;
    the promise is identified by the index of its request in [sent]. *)
Definition issue (r : request) : M nat :=
  λ w, (Return (length (sent w)), set_sent (sent w ++ [(now w, r)]) w).

Definition getTaskList (page : value) : M nat := issue (GetTaskList page).

Definition deleteTask (uuid : value) : M nat := issue (DeleteTask uuid).

End api.

(** [promise.then(..).finally(..)]: the callbacks wait for the promise to
    settle. *)
Definition then_finally (promise : nat) (cb : callbacks) : M unit :=
  modify (λ w, set_pending (<[promise := cb]> (pending w)) w).

(** [this.$message(..)] *)
Definition dollar_message (n : notice) : M unit :=
  modify (λ w, set_messages (messages w ++ [n]) w).

(** [window.setInterval(this.getList, delay)]: a fresh handle, first firing
    one delay from now. *)
Definition setInterval (delay : Z) : M nat :=
  λ w, (Return (next_handle w),
        set_next_handle (S (next_handle w))
          (set_timers (timers w ++ [(next_handle w, {| due := now w + delay; delay := delay |})]) w)).

(** [clearInterval(handle)]; an unset handle clears nothing. *)
Definition clearInterval (handle : option nat) : M unit :=
  modify (λ w, match handle with
               | Some h => set_timers (filter (λ t, t.1 ≠ h) (timers w)) w
               | None => w
               end).

(** *** The methods *)

Definition getList : M unit :=
  page ←' read (λ w, data.listQuery_page (vm w));
  promise ←' api.getTaskList page;
  then_finally promise OnList.

(** [response => { this.list = response.payload.entry;
                  this.total = response.payload.count; }] *)
Definition getList_then (response : value) : M unit :=
  payload ←' get response P_payload;
  entry ←' get payload P_entry;
  modify (update (data.set_list entry)) ;;'
  payload ←' get response P_payload;
  count ←' get payload P_count;
  modify (update (data.set_total count)).

(** [() => { this.listLoading = false; }] *)
Definition getList_finally : M unit :=
  modify (update (data.set_listLoading false)).

Definition handleDelete (row : gmap string value) : M unit :=
  modify (update (data.set_selectedData (Object_assign row))) ;;'
  modify (update (data.set_deleteDialogVisible true)).

Definition deleteTask : M unit :=
  modify (update (data.set_deleteDialogLoading true)) ;;'
  selected ←' read (λ w, data.selectedData (vm w));
  promise ←' api.deleteTask (object_get selected P_uuid);
  then_finally promise OnDelete.

(** [response => { this.$message({ message: 'Task Deleted', type: 'success' }); }] *)
Definition deleteTask_then (response : value) : M unit :=
  dollar_message {| message := "Task Deleted"; type := "success" |}.

(** [() => { this.deleteDialogLoading = false;
            this.deleteDialogVisible = false; }] *)
Definition deleteTask_finally : M unit :=
  modify (update (data.set_deleteDialogLoading false)) ;;'
  modify (update (data.set_deleteDialogVisible false)).

(** [handleLog]: the router resolves the log route with the row's uuid as
    query, and the address is opened in a new window. *)
Definition handleLog (row : gmap string value) : M unit :=
  uuid ←' get (VObj row) P_uuid;
  modify (λ w, set_opened (opened w ++ [uuid]) w).

(** *** The lifecycle hooks *)

Definition created : M unit :=
  handle ←' setInterval (3 * 1000);
  modify (set_polling (Some handle)) ;;'
  getList.

Definition beforeDestroy : M unit :=
  handle ←' read polling;
  clearInterval handle.

(** *** The event loop *)

(** A promise settles: a fulfilled one runs the [then] callback and, whether
    that returns or throws, the [finally] callback; a rejected one runs the
    [finally] callback alone.  A promise that is not pending has no
    callback left to run. *)
Definition on_then (cb : callbacks) : value → M unit :=
  match cb with
  | OnList => getList_then
  | OnDelete => deleteTask_then
  end.

Definition on_finally (cb : callbacks) : M unit :=
  match cb with
  | OnList => getList_finally
  | OnDelete => deleteTask_finally
  end.

Definition settle (promise : nat) (s : settlement) (w : World) : World :=
  match pending w !! promise with
  | None => w
  | Some cb =>
      let w := set_pending (delete promise (pending w)) w in
      match s with
      | Fulfilled response => exec (on_finally cb) (exec (on_then cb response) w)
      | Rejected _ => exec (on_finally cb) w
      end
  end.

(** One millisecond passes: every interval that is due calls [getList] and
    is due again one delay later. *)
Definition is_due (t : Z) (e : nat * timer) : bool := bool_decide (due e.2 = t).

Definition rearm (t : Z) (e : nat * timer) : nat * timer :=
  if is_due t e then (e.1, {| due := due e.2 + delay e.2; delay := delay e.2 |})
  else e.

Definition tick (w : World) : World :=
  let t := now w + 1 in
  let w := set_now t w in
  let w := foldl (λ w _, exec getList w) w (filter (λ e, is_due t e = true) (timers w)) in
  set_timers (rearm t <$> timers w) w.

(** What can happen to a mounted view: time passes, a promise settles, the
    user acts on the template, the view is destroyed.  The template binds
    [:page.sync], [:limit.sync] and [@pagination="getList"] on the
    pagination, [handleLog(row)] and [handleDelete(row)] on the buttons of a
    row, [:visible.sync], [deleteDialogVisible = false] (Cancel) and
    [deleteTask] (Delete) on the dialog. *)
Inductive event :=
| Tick
| Settle (promise : nat) (s : settlement)
| UpdatePage (v : value)
| UpdateLimit (v : value)
| Pagination
| ClickLog (row : gmap string value)
| ClickDelete (row : gmap string value)
| UpdateVisible (b : bool)
| ClickCancel
| ClickConfirm
| Destroy.

Definition step (e : event) (w : World) : World :=
  match e with
  | Tick => tick w
  | Settle promise s => settle promise s w
  | UpdatePage v => update (data.set_listQuery_page v) w
  | UpdateLimit v => update (data.set_listQuery_limit v) w
  | Pagination => exec getList w
  | ClickLog row => exec (handleLog row) w
  | ClickDelete row => exec (handleDelete row) w
  | UpdateVisible b => update (data.set_deleteDialogVisible b) w
  | ClickCancel => update (data.set_deleteDialogVisible false) w
  | ClickConfirm => exec deleteTask w
  | Destroy => exec beforeDestroy w
  end.

Definition run (es : list event) (w : World) : World := foldl (λ w e, step e w) w es.

(** The view before [created]: fresh data, nothing sent, no timer. *)
Definition fresh (t0 : Z) : World :=
  {| vm := data.init; polling := None; now := t0; timers := [];
     next_handle := 1; sent := []; pending := ∅; messages := []; opened := [] |}.

Definition mount (t0 : Z) : World := exec created (fresh t0).

(** *** Notions used in the statements *)

(** The value of [v.p] where the read does not throw. *)
Definition field (v : value) (p : prop) : value :=
  match getp v p with
  | Return x => x
  | Throw _ => VUndefined
  end.

(** [w'] is [w] up to the requests issued and the promises pending. *)
Definition same_but_requests (w w' : World) : Prop :=
  vm w' = vm w ∧ polling w' = polling w ∧ now w' = now w
  ∧ timers w' = timers w ∧ next_handle w' = next_handle w
  ∧ messages w' = messages w ∧ opened w' = opened w.

(** The polling timer of a view mounted at [t0]: the one interval, its
    handle in [this.polling], due at a multiple of three seconds after [t0]
    and within the next three seconds. *)
Definition polling_inv (t0 : Z) (w : World) : Prop :=
  ∃ h d k, polling w = Some h
           ∧ timers w = [(h, {| due := d; delay := 3000 |})]
           ∧ d = t0 + 3000 * k
           ∧ now w < d ≤ now w + 3000.

(** The list requests of a view that was created at [t0], shows page 1 and
    has polled [k] times: one at [t0] and one every three seconds after. *)
Definition poll_times (t0 : Z) (k : nat) : list (Z * request) :=
  (λ j : nat, (t0 + 3000 * Z.of_nat j, GetTaskList (VNum 1))) <$> seq 0 (S k).

(** A run of events during which the view is not destroyed. *)
Definition alive (es : list event) : bool :=
  forallb (λ e, match e with Destroy => false | _ => true end) es.

(** A run of events during which no row's Delete button is clicked. *)
Definition keeps_selection (es : list event) : bool :=
  forallb (λ e, match e with ClickDelete _ => false | _ => true end) es.

(** What the user sees of a delete: the notifications and the two flags of
    the dialog. *)
Definition outcome_seen (w : World) : list notice * bool * bool :=
  (messages w, data.deleteDialogLoading (vm w), data.deleteDialogVisible (vm w)).

Definition task_deleted : notice :=
  {| message := "Task Deleted"; type := "success" |}.

End View.

(** Sample data: two rows, a list response, a view in mid-delete. *)
Module Samples.
Import View.

Definition row : gmap string value :=
  {[ "uuid" := VStr "7f3a"; "user" := VStr "ann"; "status" := VNum 1 ]}.

Definition other_row : gmap string value :=
  {[ "uuid" := VStr "c041"; "user" := VStr "bob"; "status" := VNum 2 ]}.

Definition payload : value :=
  VObj {[ "entry" := VArr [VObj other_row]; "count" := VNum 1 ]}.

Definition response : value := VObj {[ "payload" := payload ]}.

(** A row without a uuid of its own, whose [__proto__] entry has one. *)
Definition odd_row : gmap string value :=
  {[ "__proto__" := VObj {[ "uuid" := VStr "evil" ]}; "user" := VStr "ann" ]}.

(** A mounted view in which the Delete of [row] has just been confirmed:
    request 0 is the first fetch, request 1 the delete. *)
Definition confirming : World :=
  exec deleteTask (exec (handleDelete row) (mount 0)).

End Samples.


(* ===================================================================== *)
(** ** What a regular expression matches *)
(* ===================================================================== *)

(** The matcher above searches; this is what it searches for.
    [Matches input r x y]: starting with [x] left of [input], the expression
    [r] can match and leave [y].  A quantifier stands for a number of
    iterations between its bounds. *)
Module Language.
Import Regex.

Fixpoint iter (R : list char → list char → Prop) (n : nat)
    (x y : list char) : Prop :=
  match n with
  | O => x = y
  | S n' => ∃ z, R x z ∧ iter R n' z y
  end.

Definition within (n : nat) (max : option nat) : Prop :=
  match max with
  | None => True
  | Some k => (n ≤ k)%nat
  end.

Section Matches.

Variable input : list char.

Fixpoint Matches (r : regex) (x y : list char) : Prop :=
  match r with
  | Empty => x = y
  | Char a => x = a :: y
  | Any => ∃ b, x = b :: y ∧ line_terminator b = false
  | Class negated items =>
      ∃ b, x = b :: y ∧ xorb negated (existsb (item_mem b) items) = true
  | Seq r1 r2 => ∃ z, Matches r1 x z ∧ Matches r2 z y
  | Alt r1 r2 => Matches r1 x y ∨ Matches r2 x y
  | Repeat r min max =>
      ∃ n, (min ≤ n)%nat ∧ within n max ∧ iter (Matches r) n x y
  | Bol => x = y ∧ length x = length input
  | Eol => x = [] ∧ y = []
  end.

End Matches.

(** A quantifier [{min,max}] is accepted by the engine only with
    [min ≤ max]. *)
Fixpoint wf (r : regex) : bool :=
  match r with
  | Seq r1 r2 | Alt r1 r2 => wf r1 && wf r2
  | Repeat r min max =>
      wf r && match max with None => true | Some k => (min <=? k)%nat end
  | _ => true
  end.

End Language.

(* ===================================================================== *)
(** ** Character sets and a one-pass reading of the patterns *)
(* ===================================================================== *)

Module Shapes.
Import Regex Validate.

Definition slash : char := ch "/".
Definition at_sign : char := ch "@".
Definition dot : char := ch ".".

(** The schemes [isExternal] knows, each with its colon. *)
Definition external_schemes : list (list char) :=
  [ str "http:"; str "https:"; str "mailto:"; str "tel:" ].

(** One path segment: [P+ \/?]. *)
Definition segment : regex := Seq (Plus path_char) (Opt (Char slash)).

(** One pass over a path: [prev_slash] tells whether the character before
    was a slash, [seen_name] whether a character other than a slash has been
    read. *)
Fixpoint scan (prev_slash seen_name : bool) (s : list char) : bool :=
  match s with
  | [] => seen_name
  | c :: s' =>
      if N.eqb c slash then negb prev_slash && scan true seen_name s'
      else consumes path_char c && scan false true s'
  end.

(** A non-empty run of characters that the one-character expression [r]
    lets through. *)
Definition word (r : regex) (w : list char) : Prop :=
  w ≠ [] ∧ Forall (λ c, consumes r c = true) w.

(** [w.v1.v2...]: words joined by dots. *)
Definition dotted (w : list char) (ws : list (list char)) : list char :=
  w ++ concat ((λ v, dot :: v) <$> ws).

(** The local part of an address: dotted atoms, or a quoted string. *)
Definition local_part (l : list char) : Prop :=
  (∃ w ws, Forall (word email_atom) (w :: ws) ∧ l = dotted w ws)
  ∨ (∃ q, q ≠ [] ∧ Forall (λ c, line_terminator c = false) q
          ∧ l = dquote :: q ++ [dquote]).

(** One to three digits. *)
Definition octet_word (o : list char) : Prop :=
  (1 ≤ length o ≤ 3)%nat ∧ Forall (λ c, consumes digit c = true) o.

(** The domain of an address: a bracketed dotted quad, or dotted labels
    that end with a top-level domain of two letters or more. *)
Definition domain_part (d : list char) : Prop :=
  (∃ o1 o2 o3 o4,
      octet_word o1 ∧ octet_word o2 ∧ octet_word o3 ∧ octet_word o4
      ∧ d = ch "[" :: o1 ++ dot :: o2 ++ dot :: o3 ++ dot :: o4 ++ [ch "]"])
  ∨ (∃ w ws tld,
        Forall (word label_char) (w :: ws)
        ∧ (2 ≤ length tld)%nat ∧ Forall (λ c, consumes letter c = true) tld
        ∧ d = dotted w (ws ++ [tld])).

End Shapes.

(* ===================================================================== *)
(** ** Counting what a run of the view does *)
(* ===================================================================== *)

Module Trace.
Import View.

(** The callbacks that the view chains on a request of each kind. *)
Definition callbacks_of (r : request) : callbacks :=
  match r with
  | GetTaskList _ => OnList
  | DeleteTask _ => OnDelete
  end.

Definition is_delete (r : Z * request) : bool :=
  match r.2 with
  | DeleteTask _ => true
  | GetTaskList _ => false
  end.

(** The delete requests and the list requests sent so far. *)
Definition deletes (w : World) : nat := length (List.filter is_delete (sent w)).

Definition fetches (w : World) : nat :=
  length (List.filter (λ r, negb (is_delete r)) (sent w)).

(** The confirmations, the milliseconds and the pagination events of a run. *)
Fixpoint confirms (es : list event) : nat :=
  match es with
  | [] => 0
  | ClickConfirm :: es' => S (confirms es')
  | _ :: es' => confirms es'
  end.

Fixpoint ticks (es : list event) : nat :=
  match es with
  | [] => 0
  | Tick :: es' => S (ticks es')
  | _ :: es' => ticks es'
  end.

Fixpoint paginations (es : list event) : nat :=
  match es with
  | [] => 0
  | Pagination :: es' => S (paginations es')
  | _ :: es' => paginations es'
  end.


#[global] Instance callbacks_eq_dec : EqDecision callbacks.
Proof. solve_decision. Defined.

(** The delete requests in flight. *)
Definition deleting (w : World) : nat :=
  size (filter (λ kv : nat * callbacks, kv.2 = OnDelete) (pending w)).

(** Promises, requests and spinners agree: a pending promise belongs to a
    request that was sent and carries the callbacks of that request's kind;
    a spinner that shows has a request of its kind in flight. *)
Definition consistent (w : World) : Prop :=
  (∀ p cb, pending w !! p = Some cb →
           ∃ t r, sent w !! p = Some (t, r) ∧ callbacks_of r = cb)
  ∧ (data.deleteDialogLoading (vm w) = true → ∃ p, pending w !! p = Some OnDelete)
  ∧ (data.listLoading (vm w) = true → ∃ p, pending w !! p = Some OnList).

(** Every notification is [Task Deleted], and each one, like each delete
    still in flight, has its own delete request. *)
Definition accounted (w : World) : Prop :=
  consistent w
  ∧ Forall (λ n, n = task_deleted) (messages w)
  ∧ (length (messages w) + deleting w ≤ deletes w)%nat.

End Trace.

(* ===================================================================== *)
(** ** [api/user.js]: the user requests *)
(* ===================================================================== *)

(** Each wrapper builds one configuration object and hands it to the HTTP
    helper [request] of [@/utils/request], which is not part of the
    sources and is taken as a parameter. *)
Module UserApi.

Section Request.

Variable A : Type.
Variable request : value → A.

Definition login (data : value) : A :=
  request (VObj {[ "url" := VStr "/user/login/";
                   "method" := VStr "post";
                   "data" := data ]}).

Definition updateUserInfo (email password : value) : A :=
  request (VObj {[ "url" := VStr "/user/";
                   "method" := VStr "put";
                   "data" := VObj {[ "password" := password;
                                     "email" := email ]} ]}).

Definition getInfo : A :=
  request (VObj {[ "url" := VStr "/user/";
                   "method" := VStr "get" ]}).

Definition logout (token : value) : A :=
  request (VObj {[ "url" := VStr "/user/logout/";
                   "method" := VStr "get";
                   "params" := VObj {[ "token" := token ]} ]}).

Definition signup (data : value) : A :=
  request (VObj {[ "url" := VStr "/user/";
                   "method" := VStr "post";
                   "data" := data ]}).

End Request.

(** A member of a configuration object. *)
Definition config_field (config : value) (k : string) : value :=
  match config with
  | VObj o => default VUndefined (o !! k)
  | _ => VUndefined
  end.

(** What the server routes a request by. *)
Definition endpoint (config : value) : value * value :=
  (config_field config "method", config_field config "url").

(** The configurations of the five calls, as [request] receives them. *)
Definition configs (login_data email password token signup_data : value) : list value :=
  [ login value (λ c, c) login_data;
    updateUserInfo value (λ c, c) email password;
    getInfo value (λ c, c);
    logout value (λ c, c) token;
    signup value (λ c, c) signup_data ].

End UserApi.

(* ===================================================================== *)
(** * Properties *)
(* ===================================================================== *)

(** ** The regular-expression matcher *)
Module RegexFacts.
Import Regex.

Lemma sound_weaken (q q' : char → bool) m :
  (∀ b, q b = true → q' b = true) → sound q m → sound q' m.
Proof.
  intros Hq Hm x c H. destruct (Hm x c H) as (pre & y & -> & Hpre & Hc).
  exists pre, y. split_and!; [done| |done].
  eapply Forall_impl; [exact Hpre|]. simpl. auto.
Qed.

Lemma atom_sound p : sound p (atom p).
Proof.
  intros [|a y] c H; simpl in H; [done|].
  apply andb_true_iff in H as [Ha Hc].
  exists [a], y. split_and!; [done| |done]. by constructor.
Qed.

Lemma atom_local p : local (atom p).
Proof.
  intros [|a y] c c' H; simpl; [done|]. rewrite (H y); [done|]. simpl. lia.
Qed.

Lemma repeat_greedy_sound q m :
  sound q m → ∀ fuel max, sound q (repeat_greedy m fuel max).
Proof.
  intros Hm. induction fuel as [|fuel IH]; intros max x c H.
  - simpl in H.
    assert (Hc : c x = true ∨ m x (λ _, false) = true).
    { destruct max as [[|?]|]; [by left| |];
        apply orb_true_iff in H as [?|?]; auto. }
    destruct Hc as [Hc|Hc].
    + exists [], x. by split_and!.
    + destruct (Hm _ _ Hc) as (? & ? & _ & _ & ?). done.
  - simpl in H.
    set (d := λ y, if (length y =? length x)%nat then false
                   else repeat_greedy m fuel (dec_max max) y c) in H.
    assert (Hc : c x = true ∨ m x d = true).
    { destruct max as [[|?]|]; [by left| |];
        apply orb_true_iff in H as [?|?]; auto. }
    destruct Hc as [Hc|Hc].
    + exists [], x. by split_and!.
    + destruct (Hm _ _ Hc) as (pre & y & -> & Hpre & Hd). unfold d in Hd.
      destruct (length y =? length (pre ++ y))%nat; [done|].
      destruct (IH _ _ _ Hd) as (pre' & y' & -> & Hpre' & Hc').
      exists (pre ++ pre'), y'. rewrite <- app_assoc. split_and!; [done| |done].
      by apply Forall_app.
Qed.

Lemma RepeatMatcher_sound q m :
  sound q m → ∀ min max, sound q (RepeatMatcher m min max).
Proof.
  intros Hm. induction min as [|min IH]; intros max x c H.
  - assert (Hc : c x = true ∨ repeat_greedy m (length x) max x c = true).
    { simpl in H. destruct max as [[|?]|]; auto. }
    destruct Hc as [Hc|Hc].
    + exists [], x. by split_and!.
    + by apply (repeat_greedy_sound q m Hm) in Hc.
  - assert (Hc : c x = true ∨
                 m x (λ y, RepeatMatcher m min (dec_max max) y c) = true).
    { simpl in H. destruct max as [[|?]|]; auto. }
    destruct Hc as [Hc|Hc].
    + exists [], x. by split_and!.
    + destruct (Hm _ _ Hc) as (pre & y & -> & Hpre & Hd).
      destruct (IH _ _ _ Hd) as (pre' & y' & -> & Hpre' & Hc').
      exists (pre ++ pre'), y'. rewrite <- app_assoc. split_and!; [done| |done].
      by apply Forall_app.
Qed.

Lemma matcher_sound input r : sound (consumes r) (matcher input r).
Proof.
  induction r as [|a| |neg items|r1 IH1 r2 IH2|r1 IH1 r2 IH2|r IH min max| |];
    simpl.
  - intros x c H. exists [], x. by split_and!.
  - apply atom_sound.
  - apply atom_sound.
  - apply atom_sound.
  - intros x c H. simpl in H.
    destruct (IH1 _ _ H) as (pre & y & -> & Hpre & H2).
    destruct (IH2 _ _ H2) as (pre' & y' & -> & Hpre' & Hc).
    exists (pre ++ pre'), y'. rewrite <- app_assoc. split_and!; [done| |done].
    apply Forall_app. split; (eapply Forall_impl; [eassumption|]);
      simpl; intros ? ->; by rewrite ?orb_true_r.
  - intros x c H. simpl in H. apply orb_true_iff in H as [H|H].
    + revert x c H. eapply sound_weaken; [|exact IH1]. by intros ? ->.
    + revert x c H. eapply sound_weaken; [|exact IH2].
      intros ? ->. by rewrite orb_true_r.
  - by apply RepeatMatcher_sound.
  - intros x c H. simpl in H. apply andb_true_iff in H as [_ H].
    exists [], x. by split_and!.
  - intros x c H. destruct x; simpl in H; [|done]. exists [], []. by split_and!.
Qed.

Lemma repeat_greedy_local m :
  local m → ∀ fuel max, local (repeat_greedy m fuel max).
Proof.
  intros Hm. induction fuel as [|fuel IH]; intros max x c c' H; simpl.
  - rewrite (H x); [|done]. by destruct max as [[|?]|].
  - rewrite (H x); [|done].
    destruct max as [[|?]|]; [done| |]; f_equal; apply Hm; intros y Hy;
      (destruct (length y =? length x)%nat; [done|]);
      apply IH; intros; apply H; lia.
Qed.

Lemma RepeatMatcher_local m :
  local m → ∀ min max, local (RepeatMatcher m min max).
Proof.
  intros Hm. induction min as [|min IH]; intros max x c c' H; simpl.
  - destruct max as [[|?]|]; [by apply H| |]; by apply repeat_greedy_local.
  - destruct max as [[|?]|]; [by apply H| |]; apply Hm; intros y Hy;
      apply IH; intros; apply H; lia.
Qed.

Lemma matcher_local input r : local (matcher input r).
Proof.
  induction r as [|a| |neg items|r1 IH1 r2 IH2|r1 IH1 r2 IH2|r IH min max| |];
    simpl; try apply atom_local.
  - intros x c c' H. by apply H.
  - intros x c c' H. simpl. apply IH1. intros y Hy. apply IH2.
    intros; apply H; lia.
  - intros x c c' H. simpl. by rewrite (IH1 x c c'), (IH2 x c c').
  - by apply RepeatMatcher_local.
  - intros x c c' H. simpl. by rewrite (H x).
  - intros x c c' H. destruct x; simpl; [|done]. by apply H.
Qed.

(** The fuel of [repeat_greedy] never decides a result: any amount that
    covers the rest of the input gives the same answer. *)
Lemma repeat_greedy_fuel m :
  local m → ∀ n n' max x c,
    (length x ≤ n)%nat → (length x ≤ n')%nat →
    repeat_greedy m n max x c = repeat_greedy m n' max x c.
Proof.
  intros Hm. induction n as [|n IH]; intros [|n'] max x c Hn Hn'; simpl;
    try done.
  - destruct max as [[|?]|]; [done| |]; f_equal; apply Hm; intros y Hy;
      (replace (length y =? length x)%nat with true; [done|]);
      symmetry; apply Nat.eqb_eq; lia.
  - destruct max as [[|?]|]; [done| |]; f_equal; apply Hm; intros y Hy;
      (replace (length y =? length x)%nat with true; [done|]);
      symmetry; apply Nat.eqb_eq; lia.
  - destruct max as [[|?]|]; [done| |]; f_equal; apply Hm; intros y Hy;
      (destruct (Nat.eqb_spec (length y) (length x)); [done|]);
      apply IH; lia.
Qed.

(** An expression that ends with [$] matches up to the end of the input. *)
Lemma matcher_anchored input r x c :
  ends_anchored r = true → matcher input r x c = true →
  Forall (λ b, consumes r b = true) x.
Proof.
  revert x c.
  induction r as [|a| |neg items|r1 IH1 r2 IH2|r1 IH1 r2 IH2|r IH min max| |];
    intros x c Hr H; simpl in Hr; try done.
  - simpl in H. destruct (matcher_sound _ _ _ _ H) as (pre & y & -> & Hpre & H2).
    apply IH2 in H2; [|done]. apply Forall_app. split;
      (eapply Forall_impl; [eassumption|]); simpl; intros ? ->;
      by rewrite ?orb_true_r.
  - apply andb_true_iff in Hr as [Hr1 Hr2]. simpl in H.
    apply orb_true_iff in H as [H|H].
    + apply IH1 in H; [|done]. eapply Forall_impl; [exact H|].
      simpl. by intros ? ->.
    + apply IH2 in H; [|done]. eapply Forall_impl; [exact H|].
      simpl. intros ? ->. by rewrite orb_true_r.
  - destruct x; [constructor|done].
Qed.

(** A pattern of the shape [^ r] with [r] ending in [$] accepts only strings
    made of characters that [r] can consume. *)
Lemma test_anchored r input :
  ends_anchored r = true →
  test (Seq Bol r) input = true →
  Forall (λ b, consumes r b = true) input.
Proof.
  unfold test. intros Hr H. apply existsb_exists in H as (i & Hi & H).
  simpl in H. apply andb_true_iff in H as [Hlen H].
  apply Nat.eqb_eq in Hlen. rewrite length_drop in Hlen.
  apply in_seq in Hi.
  assert (drop i input = input) as Heq.
  { destruct i; [done|]. destruct input; [done|]. simpl in *. lia. }
  rewrite Heq in H. by eapply matcher_anchored.
Qed.

End RegexFacts.

(** ** The status filters *)

Module FiltersFacts.
Import Filters.

(** Refute [H : s ∈ [k1; ..; kn]] by refuting each [s = ki] with [tac]. *)
Ltac refute_member H tac :=
  repeat (apply elem_of_cons in H as [H|H]; [tac|]);
  by apply elem_of_nil in H.

Lemma get_statusMap_other (k : string) :
  k ∉ status_keys → k ∉ Object_prototype_keys → get statusMap k = Undefined.
Proof.
  intros Hk Hp. unfold get, statusMap.
  rewrite !lookup_insert_ne, lookup_singleton_ne
    by (intros <-; apply Hk; unfold status_keys; set_solver).
  by rewrite bool_decide_eq_false_2.
Qed.

Lemma get_statusTypeMap_other (k : string) :
  k ∉ status_keys → k ∉ Object_prototype_keys → get statusTypeMap k = Undefined.
Proof.
  intros Hk Hp. unfold get, statusTypeMap.
  rewrite !lookup_insert_ne, lookup_singleton_ne
    by (intros <-; apply Hk; unfold status_keys; set_solver).
  by rewrite bool_decide_eq_false_2.
Qed.

(** A decimal numeral starts with a digit. *)
Lemma pretty_N_go_head (x : N) (s : string) :
  (0 < x)%N → ∃ d rest, pretty_N_go x s = String (pretty_N_char d) rest.
Proof.
  revert s. induction (N.lt_wf_0 x) as [x _ IH]; intros s Hx.
  rewrite pretty_N_go_step by done.
  destruct (decide (x `div` 10 = 0)%N) as [->|Hne].
  - rewrite pretty_N_go_0. eauto.
  - apply IH; [apply N.div_lt; lia | by apply N.neq_0_lt_0].
Qed.

Lemma pretty_Z_head (z : Z) :
  0 ≤ z → ∃ d rest, pretty z = String (pretty_N_char d) rest.
Proof.
  intros Hz. destruct z as [|p|p]; [|
    |lia].
  - by exists 0%N, EmptyString.
  - unfold pretty, pretty_Z, pretty, pretty_positive, pretty, pretty_N.
    rewrite decide_False by done. by apply pretty_N_go_head.
Qed.

Lemma digit_not_prototype_key (d : N) (rest : string) :
  String (pretty_N_char d) rest ∉ Object_prototype_keys.
Proof.
  unfold Object_prototype_keys, pretty_N_char. intros H.
  refute_member H ltac:(repeat case_match; discriminate).
Qed.

(** The key of a status code is one of the nine keys of the maps only for
    the codes 0 to 8, and it is never a member of [Object.prototype]. *)
Lemma Number_toString_key (z : Z) :
  (Number_toString z ∈ status_keys → 0 ≤ z ≤ 8)
  ∧ Number_toString z ∉ Object_prototype_keys.
Proof.
  unfold Number_toString. destruct (Z.abs z <? 10 ^ 21) eqn:Hsmall.
  - split.
    + unfold status_keys. intros H.
      refute_member H ltac:(
        first [ assert (z = 0) by (apply (inj pretty); exact H)
              | assert (z = 1) by (apply (inj pretty); exact H)
              | assert (z = 2) by (apply (inj pretty); exact H)
              | assert (z = 3) by (apply (inj pretty); exact H)
              | assert (z = 4) by (apply (inj pretty); exact H)
              | assert (z = 5) by (apply (inj pretty); exact H)
              | assert (z = 6) by (apply (inj pretty); exact H)
              | assert (z = 7) by (apply (inj pretty); exact H)
              | assert (z = 8) by (apply (inj pretty); exact H) ]; lia).
    + destruct (decide (0 ≤ z)) as [Hz|Hz].
      * destruct (pretty_Z_head z Hz) as (d & rest & ->).
        apply digit_not_prototype_key.
      * destruct z as [|p|p]; [lia|lia|].
        unfold pretty, pretty_Z, Object_prototype_keys. simpl. intros H.
        refute_member H discriminate.
  - assert (Hshape : (∃ rest, exponent_notation z = String "-" rest)
                     ∨ exponent_notation z = EmptyString
                     ∨ (∃ d rest, exponent_notation z = String d (String "e" rest))
                     ∨ (∃ d rest, exponent_notation z = String d (String "." rest))).
    { unfold exponent_notation. destruct (z <? 0); simpl.
      - left. eauto.
      - right. destruct (strip_zeros _) as [|d [|??]]; simpl; eauto. }
    unfold status_keys, Object_prototype_keys.
    destruct Hshape as [(rest & ->)|[->|[(d & rest & ->)|(d & rest & ->)]]];
      (split; intros H; refute_member H discriminate).
Qed.

End FiltersFacts.

(** ** The Task view *)
Module ViewFacts.
Import View.


Lemma getp_defined (v : value) (p : prop) :
  v ≠ VUndefined → v ≠ VNull → getp v p = Return (field v p).
Proof. intros ??. unfold field. by destruct v. Qed.

Lemma exec_getList_then_ok (response payload : value) (w : World) :
  getp response P_payload = Return payload →
  payload ≠ VUndefined → payload ≠ VNull →
  exec (getList_then response) w
  = update (data.set_total (field payload P_count))
           (update (data.set_list (field payload P_entry)) w).
Proof.
  intros Hp ??. unfold exec, getList_then, bind, get, modify.
  rewrite Hp, !getp_defined by done. reflexivity.
Qed.

(** A response without a payload makes the [then] callback throw before it
    assigns anything. *)
Lemma exec_getList_then_no_payload (response : value) (w : World) :
  getp response P_payload = Return VUndefined
  ∨ getp response P_payload = Return VNull
  ∨ getp response P_payload = Throw TypeError →
  getList_then response w = (Throw TypeError, w).
Proof.
  unfold getList_then, bind, get. by intros [->|[->| ->]].
Qed.

(** Whatever the response, the [then] callback of [getList] writes at most
    [list] and [total]. *)
Lemma exec_getList_then_frame (response : value) (w : World) :
  ∃ l t, exec (getList_then response) w
         = update (data.set_total t) (update (data.set_list l) w)
         ∨ exec (getList_then response) w = w.
Proof.
  destruct (getp response P_payload) as [payload|e] eqn:Hp.
  - assert (payload = VUndefined ∨ payload = VNull
            ∨ (payload ≠ VUndefined ∧ payload ≠ VNull)) as [->|[->|[??]]]
      by (destruct payload; auto).
    + exists VNull, VNull. right.
      unfold exec, getList_then, bind, get. by rewrite Hp.
    + exists VNull, VNull. right.
      unfold exec, getList_then, bind, get. by rewrite Hp.
    + eexists _, _. left. by apply exec_getList_then_ok.
  - exists VNull, VNull. right. unfold exec, getList_then, bind, get. by rewrite Hp.
Qed.

Lemma exec_getList (w : World) :
  exec getList w
  = set_pending (<[length (sent w) := OnList]> (pending w))
      (set_sent (sent w ++ [(now w, GetTaskList (data.listQuery_page (vm w)))]) w).
Proof. reflexivity. Qed.

Lemma exec_deleteTask (w : World) :
  exec deleteTask w
  = set_pending (<[length (sent w) := OnDelete]> (pending w))
      (set_sent (sent w ++ [(now w, DeleteTask
          (object_get (data.selectedData (vm w)) P_uuid))])
        (update (data.set_deleteDialogLoading true) w)).
Proof. reflexivity. Qed.

Lemma exec_beforeDestroy (w : World) :
  exec beforeDestroy w
  = match polling w with
    | Some h => set_timers (filter (λ t, t.1 ≠ h) (timers w)) w
    | None => w
    end.
Proof. reflexivity. Qed.

Lemma sent_deleteTask (w : World) :
  sent (exec deleteTask w)
  = sent w ++ [(now w, DeleteTask (object_get (data.selectedData (vm w)) P_uuid))].
Proof. reflexivity. Qed.

(** What the copy of a row answers when asked for its uuid. *)
Lemma object_get_assign (row : gmap string value) :
  object_get (Object_assign row) P_uuid
  = match row !! "uuid" with
    | Some uuid => uuid
    | None =>
        match row !! "__proto__" with
        | Some (VObj parent) => default VUndefined (parent !! "uuid")
        | _ => VUndefined
        end
    end.
Proof.
  unfold object_get, Object_assign. cbn [own proto prop_name].
  rewrite lookup_delete_ne by done.
  destruct (row !! "uuid") as [u|]; [done|].
  by destruct (row !! "__proto__") as [[]|].
Qed.

Lemma foldl_getList {A} (l : list A) (w : World) :
  same_but_requests w (foldl (λ w _, exec getList w) w l).
Proof.
  revert w. induction l as [|a l IH]; intros w; simpl.
  - by repeat split.
  - destruct (IH (exec getList w)) as (?&?&?&?&?&?&?). by repeat split.
Qed.

(** The data a settling [getList] promise leaves: at most [list] and
    [total] are replaced, and [listLoading] is cleared. *)
Lemma settle_OnList (w : World) (p : nat) (s : settlement) :
  pending w !! p = Some OnList →
  ∃ l t,
    settle p s w
    = update (data.set_listLoading false)
        (update (data.set_total t)
           (update (data.set_list l) (set_pending (delete p (pending w)) w))).
Proof.
  intros Hp. unfold settle. rewrite Hp. destruct s as [response|reason].
  - simpl on_then. simpl on_finally.
    destruct (exec_getList_then_frame response
                (set_pending (delete p (pending w)) w)) as (l & t & [->| ->]).
    + by exists l, t.
    + by exists (data.list (vm w)), (data.total (vm w)).
  - by exists (data.list (vm w)), (data.total (vm w)).
Qed.

Lemma settle_OnDelete (w : World) (p : nat) (s : settlement) :
  pending w !! p = Some OnDelete →
  settle p s w
  = update (data.set_deleteDialogVisible false)
      (update (data.set_deleteDialogLoading false)
         (set_messages
            (messages w ++ match s with
                           | Fulfilled _ => [{| message := "Task Deleted"; type := "success" |}]
                           | Rejected _ => []
                           end)
            (set_pending (delete p (pending w)) w))).
Proof.
  intros Hp. unfold settle. rewrite Hp. destruct s as [response|reason].
  - reflexivity.
  - cbn. by rewrite app_nil_r.
Qed.

Lemma settle_not_pending (w : World) (p : nat) (s : settlement) :
  pending w !! p = None → settle p s w = w.
Proof. intros Hp. unfold settle. by rewrite Hp. Qed.

(** What a step other than a tick or the destruction leaves alone: the
    clock and the timers. *)
Lemma step_browser (e : event) (w : World) :
  e ≠ Tick → e ≠ Destroy →
  polling (step e w) = polling w ∧ now (step e w) = now w
  ∧ timers (step e w) = timers w.
Proof.
  intros ??. destruct e as [|p s| | | | | | | | |]; try done.
  change (step (Settle p s) w) with (settle p s w).
  destruct (pending w !! p) as [[|]|] eqn:Hp.
  - destruct (settle_OnList w p s Hp) as (l & t & ->). done.
  - by rewrite settle_OnDelete.
  - by rewrite settle_not_pending.
Qed.

Lemma tick_vm (w : World) : vm (tick w) = vm w.
Proof.
  unfold tick.
  match goal with
  | |- context [foldl ?f ?a ?l] => destruct (foldl_getList l a) as (Hvm & _)
  end.
  exact Hvm.
Qed.

Lemma run_cons (e : event) (es : list event) (w : World) :
  run (e :: es) w = run es (step e w).
Proof. reflexivity. Qed.

Lemma run_app (es es' : list event) (w : World) :
  run (es ++ es') w = run es' (run es w).
Proof. apply foldl_app. Qed.

(** Only [handleDelete] writes [selectedData]. *)
Lemma step_selectedData (e : event) (w : World) :
  (∀ row, e ≠ ClickDelete row) →
  data.selectedData (vm (step e w)) = data.selectedData (vm w).
Proof.
  intros He. destruct e as [|p s| | | |row|row| | | |]; try done.
  - change (step Tick w) with (tick w). by rewrite tick_vm.
  - change (step (Settle p s) w) with (settle p s w).
    destruct (pending w !! p) as [[|]|] eqn:Hp.
    + destruct (settle_OnList w p s Hp) as (l & t & ->). done.
    + by rewrite settle_OnDelete.
    + by rewrite settle_not_pending.
  - by destruct (He row).
  - simpl. rewrite exec_beforeDestroy. by destruct (polling w).
Qed.

Lemma run_selectedData (es : list event) (w : World) :
  Forall (λ e, ∀ row, e ≠ ClickDelete row) es →
  data.selectedData (vm (run es w)) = data.selectedData (vm w).
Proof.
  intros Hes. revert w. induction Hes as [|e es He _ IH]; intros w; [done|].
  rewrite run_cons, IH. by apply step_selectedData.
Qed.

Lemma mount_polling (t0 : Z) : polling_inv t0 (mount t0).
Proof. exists 1%nat, (t0 + 3000), 1. cbn. split_and!; (done || lia). Qed.

Lemma tick_sent (w : World) (h : nat) (d : Z) :
  timers w = [(h, {| due := d; delay := 3000 |})] →
  sent (tick w)
  = sent w ++ (if decide (d = now w + 1)
               then [(now w + 1, GetTaskList (data.listQuery_page (vm w)))]
               else [])
  ∧ timers (tick w)
    = [(h, {| due := if decide (d = now w + 1) then d + 3000 else d;
              delay := 3000 |})]
  ∧ polling (tick w) = polling w ∧ now (tick w) = now w + 1.
Proof.
  intros Ht. unfold tick, rearm, is_due. cbn. rewrite !Ht.
  rewrite filter_cons, filter_nil. cbn.
  destruct (decide (d = now w + 1)) as [->|Hne].
  - rewrite !bool_decide_eq_true_2 by done. rewrite decide_True by done.
    cbn. rewrite Ht. cbn. by rewrite bool_decide_eq_true_2.
  - rewrite !bool_decide_eq_false_2 by done. rewrite decide_False by done.
    cbn. rewrite Ht. cbn. by rewrite bool_decide_eq_false_2, app_nil_r.
Qed.

Lemma tick_now (w : World) : now (tick w) = now w + 1.
Proof.
  unfold tick.
  match goal with
  | |- context [foldl ?f ?a ?l] =>
      destruct (foldl_getList l a) as (_ & _ & Hnow & _)
  end.
  exact Hnow.
Qed.

(** Ticks before the timer is due send nothing. *)
Lemma ticks_quiet (r : nat) :
  ∀ (w : World) (h : nat) (d : Z),
    timers w = [(h, {| due := d; delay := 3000 |})] →
    now w + Z.of_nat r < d →
    sent (run (replicate r Tick) w) = sent w
    ∧ timers (run (replicate r Tick) w) = timers w
    ∧ now (run (replicate r Tick) w) = now w + Z.of_nat r
    ∧ vm (run (replicate r Tick) w) = vm w.
Proof.
  induction r as [|r IH]; intros w h d Ht Hd.
  - change (run (replicate 0 Tick) w) with w. split_and!; (done || lia).
  - change (replicate (S r) Tick) with (Tick :: replicate r Tick).
    rewrite run_cons. change (step Tick w) with (tick w).
    destruct (tick_sent w h d Ht) as (Hs & Ht' & _ & Hn).
    rewrite decide_False in Hs by lia. rewrite decide_False in Ht' by lia.
    rewrite app_nil_r in Hs.
    destruct (IH (tick w) h d Ht' ltac:(rewrite Hn; lia)) as (-> & -> & -> & ->).
    rewrite Hs, Ht', Hn, tick_vm, Ht. split_and!; (done || lia).
Qed.

(** After [k] full periods the view has polled [k] times and the timer is
    due one period later. *)
Lemma ticks_periods (t0 : Z) (k : nat) :
  sent (run (replicate (3000 * k) Tick) (mount t0)) = poll_times t0 k
  ∧ timers (run (replicate (3000 * k) Tick) (mount t0))
    = [(1%nat, {| due := t0 + 3000 * Z.of_nat (S k); delay := 3000 |})]
  ∧ now (run (replicate (3000 * k) Tick) (mount t0)) = t0 + 3000 * Z.of_nat k
  ∧ vm (run (replicate (3000 * k) Tick) (mount t0)) = vm (mount t0).
Proof.
  induction k as [|k (Hs & Ht & Hn & Hv)].
  - rewrite Nat.mul_0_r. change (run (replicate 0 Tick) (mount t0)) with (mount t0).
    split_and!.
    + unfold poll_times. cbn [seq fmap list_fmap].
      by replace (t0 + 3000 * Z.of_nat 0) with t0 by lia.
    + change (timers (mount t0))
        with [(1%nat, {| due := t0 + 3000; delay := 3000 |})].
      by replace (t0 + 3000 * Z.of_nat 1) with (t0 + 3000) by lia.
    + change (now (mount t0)) with t0. lia.
    + done.
  - replace (3000 * S k)%nat with (3000 * k + (2999 + 1))%nat by lia.
    rewrite replicate_add, run_app.
    set (w := run (replicate (3000 * k) Tick) (mount t0)) in *.
    rewrite replicate_add, run_app.
    destruct (ticks_quiet 2999 w _ _ Ht ltac:(lia)) as (Hs1 & Ht1 & Hn1 & Hv1).
    set (w1 := run (replicate 2999 Tick) w) in *.
    change (run (replicate 1 Tick) w1) with (tick w1).
    rewrite Ht in Ht1.
    destruct (tick_sent w1 _ _ Ht1) as (Hs2 & Ht2 & _ & Hn2).
    rewrite decide_True in Hs2 by lia. rewrite decide_True in Ht2 by lia.
    rewrite Hs2, Ht2, Hn2, tick_vm, Hs1, Hs, Hn1, Hn, Hv1, Hv. split_and!.
    + unfold poll_times. rewrite (seq_S (S k)), fmap_app.
      change (data.listQuery_page (vm (mount t0))) with (VNum 1).
      cbn [fmap list_fmap Nat.add].
      by replace (t0 + 3000 * Z.of_nat k + Z.of_nat 2999 + 1)
        with (t0 + 3000 * Z.of_nat (S k)) by lia.
    + by replace (t0 + 3000 * Z.of_nat (S k) + 3000)
        with (t0 + 3000 * Z.of_nat (S (S k))) by lia.
    + lia.
    + done.
Qed.

Lemma event_cases (e : event) :
  e = Tick ∨ e = Destroy ∨ (e ≠ Tick ∧ e ≠ Destroy).
Proof. destruct e; auto. Qed.

(** The clock moves with the ticks and with nothing else. *)
Lemma step_now (e : event) (w : World) :
  now (step e w) = now w + Z.of_nat (Trace.ticks [e]).
Proof.
  destruct (event_cases e) as [->|[->|[Hn Hd]]].
  - change (step Tick w) with (tick w). rewrite tick_now. simpl. lia.
  - simpl. rewrite exec_beforeDestroy. destruct (polling w); simpl; lia.
  - destruct (step_browser e w Hn Hd) as (_ & -> & _).
    destruct e; simpl; (done || lia).
Qed.

Lemma run_now (es : list event) :
  ∀ w, now (run es w) = now w + Z.of_nat (Trace.ticks es).
Proof.
  induction es as [|e es IH]; intros w.
  - change (run [] w) with w. simpl. lia.
  - rewrite run_cons, IH, step_now. destruct e; simpl; lia.
Qed.

Lemma step_polling (t0 : Z) (e : event) (w : World) :
  e ≠ Destroy → polling_inv t0 w → polling_inv t0 (step e w).
Proof.
  intros He (h & d & k & Hp & Ht & Hd & Hnow).
  destruct (event_cases e) as [->|[->|[Hne _]]]; [|done|].
  - change (step Tick w) with (tick w).
    destruct (tick_sent w h d Ht) as (_ & Ht' & Hp' & Hnow').
    exists h. eexists. exists (if decide (d = now w + 1) then k + 1 else k).
    rewrite Hp', Ht', Hnow'. split_and!; [done|done|..];
      destruct (decide (d = now w + 1)); lia.
  - destruct (step_browser e w Hne He) as (Hp' & Hnow' & Ht').
    exists h, d, k. by rewrite Hp', Ht', Hnow'.
Qed.

Lemma run_polling (t0 : Z) (es : list event) (w : World) :
  Destroy ∉ es → polling_inv t0 w → polling_inv t0 (run es w).
Proof.
  revert w. induction es as [|e es IH]; intros w Hes Hw; [done|].
  rewrite run_cons. apply IH.
  - intros ?. apply Hes. by right.
  - apply step_polling; [|done]. intros ->. apply Hes. by left.
Qed.

(** Without a timer a tick sends nothing. *)
Lemma tick_no_timer (w : World) :
  timers w = [] → sent (tick w) = sent w ∧ timers (tick w) = [].
Proof. intros Ht. unfold tick. cbn. rewrite !Ht. cbn. by rewrite Ht. Qed.

Lemma step_no_timer (e : event) (w : World) :
  timers w = [] → timers (step e w) = [].
Proof.
  intros Ht. destruct (event_cases e) as [->|[->|[Hne Hne']]].
  - change (step Tick w) with (tick w). by apply tick_no_timer.
  - simpl. rewrite exec_beforeDestroy. destruct (polling w); cbn; by rewrite Ht.
  - destruct (step_browser e w Hne Hne') as (_ & _ & ->). done.
Qed.

Lemma run_no_timer (es : list event) (w : World) :
  timers w = [] → timers (run es w) = [].
Proof.
  revert w. induction es as [|e es IH]; intros w Hw; [done|].
  rewrite run_cons. by apply IH, step_no_timer.
Qed.

Lemma destroy_polling (t0 : Z) (w : World) :
  polling_inv t0 w → timers (step Destroy w) = [].
Proof.
  intros (h & d & k & Hp & Ht & _). simpl.
  rewrite exec_beforeDestroy, Hp. cbn.
  rewrite Ht, filter_cons, filter_nil. cbn. by rewrite decide_False by auto.
Qed.


Lemma alive_no_destroy (es : list event) : alive es = true → Destroy ∉ es.
Proof.
  unfold alive. rewrite forallb_forall. intros H Hin.
  apply list_elem_of_In, H in Hin. done.
Qed.

Lemma keeps_selection_no_click (es : list event) :
  keeps_selection es = true → Forall (λ e, ∀ row, e ≠ ClickDelete row) es.
Proof.
  unfold keeps_selection. rewrite forallb_forall, Forall_forall.
  intros H e Hin row ->. apply list_elem_of_In, H in Hin. done.
Qed.

Lemma run_polling_or_none (t0 : Z) (es : list event) (w : World) :
  polling_inv t0 w ∨ timers w = [] →
  polling_inv t0 (run es w) ∨ timers (run es w) = [].
Proof.
  revert w. induction es as [|e es IH]; intros w Hw; [done|].
  rewrite run_cons. apply IH. destruct Hw as [Hw|Hw].
  - destruct (event_cases e) as [->|[->|[_ Hne]]].
    + left. by apply step_polling.
    + right. by apply (destroy_polling t0).
    + left. by apply step_polling.
  - right. by apply step_no_timer.
Qed.

End ViewFacts.

(** ** The status filters: the table and the unknown codes *)

(** C4: for each of the nine status codes the label lookup gives the
    documented label (0 Scheduled, 1 Running, 2 Succeeded, 3 Failed,
    4 Deleting, 5 Pending, 6 TLE, 7 Waiting, 8 MLE) and the severity lookup
    the documented tag (0 info, 1 the empty tag, 2 success, 3 danger, 4 info,
    5 warning, 6 danger, 7 warning, 8 danger). *)
Theorem status_table :
  Filters.statusFilter <$> [0; 1; 2; 3; 4; 5; 6; 7; 8]
  = Filters.Str <$> [ "Scheduled"; "Running"; "Succeeded"; "Failed"; "Deleting";
                      "Pending"; "TLE"; "Waiting"; "MLE" ]
  ∧ Filters.statusTypeFilter <$> [0; 1; 2; 3; 4; 5; 6; 7; 8]
    = Filters.Str <$> [ "info"; EmptyString; "success"; "danger"; "info";
                        "warning"; "danger"; "warning"; "danger" ].
Proof. split; vm_compute; reflexivity. Qed.

(** C5: for every status code outside 0..8 both the label lookup and the
    severity lookup give [undefined]: no default label or tag, and nothing
    inherited from the prototype of the map. *)
Theorem status_unknown (status : Z) :
  status < 0 ∨ 8 < status →
  Filters.statusFilter status = Filters.Undefined
  ∧ Filters.statusTypeFilter status = Filters.Undefined.
Proof.
  intros Hout. destruct (FiltersFacts.Number_toString_key status) as [Hk Hp].
  assert (Number_toString status ∉ Filters.status_keys) by (intros ?%Hk; lia).
  split.
  - by apply FiltersFacts.get_statusMap_other.
  - by apply FiltersFacts.get_statusTypeMap_other.
Qed.

Lemma status_unknown_witness :
  Filters.statusFilter 9 = Filters.Undefined
  ∧ Filters.statusTypeFilter 9 = Filters.Undefined.
Proof. apply (status_unknown 9). right. lia. Defined.

(** ** [validate.js]: the documented examples *)

(** C7: [validateEmail] accepts [a@b.co] and rejects [a@b] (no dot-separated
    top-level domain) and [a b@c.com] (white space in the local part). *)
Theorem validateEmail_examples :
  Validate.validateEmail (Regex.str "a@b.co") = true
  ∧ Validate.validateEmail (Regex.str "a@b") = false
  ∧ Validate.validateEmail (Regex.str "a b@c.com") = false.
Proof. repeat split; vm_compute; reflexivity. Qed.

(** C8: [validatePath] accepts [/a/b/c], and rejects every string that
    contains one of the characters [* ? < > | : \] or the double quote. *)
Theorem validatePath_spec :
  Validate.validatePath (Regex.str "/a/b/c") = true
  ∧ ∀ (path : list Regex.char) (c : Regex.char),
      In c Validate.forbidden_in_path → In c path → Validate.validatePath path = false.
Proof.
  split; [vm_compute; reflexivity|].
  intros path c Hc Hin. apply not_true_is_false. intros Hmatch.
  apply RegexFacts.test_anchored in Hmatch; [|reflexivity].
  rewrite Forall_forall in Hmatch.
  apply list_elem_of_In, Hmatch in Hin.
  simpl in Hc. destruct Hc as [<-|[<-|[<-|[<-|[<-|[<-|[<-|[<-|[]]]]]]]]];
    vm_compute in Hin; discriminate.
Qed.

Lemma validatePath_spec_witness :
  Validate.validatePath (Regex.str "a*b") = false.
Proof.
  apply (proj2 validatePath_spec (Regex.str "a*b") (Regex.ch "*")).
  - simpl. left. reflexivity.
  - simpl. right. left. reflexivity.
Defined.

(** C9: [isExternal] is true on [https://x] and false on [/local/path]. *)
Theorem isExternal_examples :
  Validate.isExternal (Regex.str "https://x") = true
  ∧ Validate.isExternal (Regex.str "/local/path") = false.
Proof. split; vm_compute; reflexivity. Qed.

(** ** The Task view: fetching, deleting, polling *)

Section ViewClaims.
Import View.

(** C1: every call of [getList] sends one list request for the current page
    and chains its callbacks on it, changing no data.  When that request
    succeeds with a response that carries a payload, [list] becomes
    [payload.entry] and [total] becomes [payload.count]; when it fails,
    nothing changes but the loading flag (list, total, selected row, dialog
    flags, query, requests and notifications are as before); in both
    outcomes [listLoading] ends up false. *)
Theorem getList_outcome :
  (∀ w : World,
      sent (exec getList w)
      = sent w ++ [(now w, GetTaskList (data.listQuery_page (vm w)))]
      ∧ pending (exec getList w) !! length (sent w) = Some OnList
      ∧ vm (exec getList w) = vm w)
  ∧ ∀ (w : World) (p : nat),
      pending w !! p = Some OnList →
      (∀ (r pl : gmap string value),
          r !! "payload" = Some (VObj pl) →
          data.list (vm (settle p (Fulfilled (VObj r)) w))
          = default VUndefined (pl !! "entry")
          ∧ data.total (vm (settle p (Fulfilled (VObj r)) w))
            = default VUndefined (pl !! "count")
          ∧ data.listLoading (vm (settle p (Fulfilled (VObj r)) w)) = false)
      ∧ (∀ response payload,
            getp response P_payload = Return payload →
            payload ≠ VUndefined → payload ≠ VNull →
            data.list (vm (settle p (Fulfilled response) w))
            = field payload P_entry
            ∧ data.total (vm (settle p (Fulfilled response) w))
              = field payload P_count
            ∧ settle p (Fulfilled response) w
              = update (data.set_listLoading false)
                  (update (data.set_total (field payload P_count))
                     (update (data.set_list (field payload P_entry))
                        (set_pending (delete p (pending w)) w))))
      ∧ (∀ reason,
            data.list (vm (settle p (Rejected reason) w)) = data.list (vm w)
            ∧ data.total (vm (settle p (Rejected reason) w)) = data.total (vm w)
            ∧ data.selectedData (vm (settle p (Rejected reason) w))
              = data.selectedData (vm w)
            ∧ data.deleteDialogVisible (vm (settle p (Rejected reason) w))
              = data.deleteDialogVisible (vm w)
            ∧ data.deleteDialogLoading (vm (settle p (Rejected reason) w))
              = data.deleteDialogLoading (vm w)
            ∧ data.listQuery_page (vm (settle p (Rejected reason) w))
              = data.listQuery_page (vm w)
            ∧ data.listQuery_limit (vm (settle p (Rejected reason) w))
              = data.listQuery_limit (vm w)
            ∧ sent (settle p (Rejected reason) w) = sent w
            ∧ messages (settle p (Rejected reason) w) = messages w
            ∧ data.listLoading (vm (settle p (Rejected reason) w)) = false
            ∧ settle p (Rejected reason) w
              = update (data.set_listLoading false)
                  (set_pending (delete p (pending w)) w))
      ∧ (∀ s, data.listLoading (vm (settle p s w)) = false).
Proof.
  split.
  { intros w. rewrite ViewFacts.exec_getList. split_and!; [done| |done].
    cbn. by rewrite lookup_insert_eq. }
  intros w p Hp.
  assert (∀ response payload,
            getp response P_payload = Return payload →
            payload ≠ VUndefined → payload ≠ VNull →
            settle p (Fulfilled response) w
            = update (data.set_listLoading false)
                (update (data.set_total (field payload P_count))
                   (update (data.set_list (field payload P_entry))
                      (set_pending (delete p (pending w)) w)))) as Hok.
  { intros response payload Hpayload ??. unfold settle. rewrite Hp.
    simpl on_then. simpl on_finally.
    by rewrite (ViewFacts.exec_getList_then_ok response payload). }
  split_and!.
  - intros r pl Hpl.
    rewrite (Hok (VObj r) (VObj pl)); [done| |done..].
    simpl. by rewrite Hpl.
  - intros response payload Hpayload Hu Hn.
    by rewrite (Hok response payload).
  - intros reason.
    assert (settle p (Rejected reason) w
            = update (data.set_listLoading false)
                (set_pending (delete p (pending w)) w)) as ->
      by (unfold settle; by rewrite Hp).
    by split_and!.
  - intros s. by destruct (ViewFacts.settle_OnList w p s Hp) as (l & t & ->).
Qed.

Lemma getList_outcome_witness :
  data.list (vm (settle 0 (Fulfilled Samples.response) (mount 0)))
  = VArr [VObj Samples.other_row]
  ∧ data.total (vm (settle 0 (Fulfilled Samples.response) (mount 0))) = VNum 1
  ∧ data.listLoading (vm (settle 0 (Fulfilled Samples.response) (mount 0)))
    = false.
Proof.
  assert (pending (mount 0) !! 0%nat = Some OnList) as Hp
    by (vm_compute; reflexivity).
  destruct (proj1 (proj2 getList_outcome (mount 0) 0%nat Hp)
              {[ "payload" := Samples.payload ]}
              {[ "entry" := VArr [VObj Samples.other_row]; "count" := VNum 1 ]})
    as (Hl & Ht & Hf); [vm_compute; reflexivity|].
  split_and!.
  - etrans; [exact Hl|]. vm_compute. reflexivity.
  - etrans; [exact Ht|]. vm_compute. reflexivity.
  - exact Hf.
Defined.

(** The first fetch of a mounted view, answered and refused. *)
Example getList_sample :
  (let w := settle 0 (Fulfilled Samples.response) (mount 0) in
   (data.list (vm w), data.total (vm w), data.listLoading (vm w)))
  = (VArr [VObj Samples.other_row], VNum 1, false)
  ∧ (let w := settle 0 (Rejected VNull) (mount 0) in
     (data.list (vm w), data.total (vm w), data.listLoading (vm w)))
    = (VNull, VNum 0, false).
Proof. split; vm_compute; reflexivity. Qed.

(** C2: clicking Delete on a row opens the dialog and stores a copy of the
    row, uuid included, and sends nothing; confirming sends exactly one
    delete request, whose argument is the uuid of the row that was stored
    when the dialog was opened (for a row without a uuid of its own: the
    uuid its copy inherits from an object stored under [__proto__], else
    [undefined]); and when that request settles, fulfilled or rejected, no
    further request is sent, [deleteDialogLoading] is false and the dialog
    is closed. *)
Theorem deleteTask_once :
  (∀ (w : World) (row : gmap string value),
      data.deleteDialogVisible (vm (exec (handleDelete row) w)) = true
      ∧ (∀ k : string,
            k ≠ "__proto__" →
            own (data.selectedData (vm (exec (handleDelete row) w))) !! k
            = row !! k)
      ∧ sent (exec (handleDelete row) w) = sent w)
  ∧ (∀ w : World,
        ∃ uuid, sent (exec deleteTask w) = sent w ++ [(now w, DeleteTask uuid)])
  ∧ (∀ (w : World) (uuid : value),
        own (data.selectedData (vm w)) !! "uuid" = Some uuid →
        sent (exec deleteTask w) = sent w ++ [(now w, DeleteTask uuid)]
        ∧ pending (exec deleteTask w) !! length (sent w) = Some OnDelete
        ∧ data.deleteDialogLoading (vm (exec deleteTask w)) = true)
  ∧ (∀ (w : World) (row : gmap string value) (uuid : value),
        row !! "uuid" = Some uuid →
        sent (exec deleteTask (exec (handleDelete row) w))
        = sent w ++ [(now w, DeleteTask uuid)])
  ∧ (∀ (w : World) (row : gmap string value),
        sent (exec deleteTask (exec (handleDelete row) w))
        = sent w
          ++ [(now w,
               DeleteTask
                 match row !! "uuid" with
                 | Some uuid => uuid
                 | None =>
                     match row !! "__proto__" with
                     | Some (VObj parent) => default VUndefined (parent !! "uuid")
                     | _ => VUndefined
                     end
                 end)])
  ∧ ∀ (w : World) (p : nat) (s : settlement),
      pending w !! p = Some OnDelete →
      sent (settle p s w) = sent w
      ∧ data.deleteDialogLoading (vm (settle p s w)) = false
      ∧ data.deleteDialogVisible (vm (settle p s w)) = false.
Proof.
  split_and!.
  - intros w row. split_and!; [done| |done].
    intros k Hk. cbn. by rewrite lookup_delete_ne.
  - intros w. eexists. apply ViewFacts.sent_deleteTask.
  - intros w uuid Hu. rewrite ViewFacts.exec_deleteTask.
    cbn [sent pending vm set_pending set_sent update set_vm
         data.deleteDialogLoading data.set_deleteDialogLoading
         data.selectedData].
    unfold object_get. cbn [prop_name]. rewrite Hu, lookup_insert_eq. done.
  - intros w row uuid Hu. rewrite ViewFacts.sent_deleteTask.
    change (data.selectedData (vm (exec (handleDelete row) w)))
      with (Object_assign row).
    unfold object_get, Object_assign. cbn [own prop_name].
    rewrite lookup_delete_ne by done. by rewrite Hu.
  - intros w row. rewrite ViewFacts.sent_deleteTask.
    change (data.selectedData (vm (exec (handleDelete row) w)))
      with (Object_assign row).
    change (sent (exec (handleDelete row) w)) with (sent w).
    change (now (exec (handleDelete row) w)) with (now w).
    by rewrite ViewFacts.object_get_assign.
  - intros w p s Hp. by rewrite ViewFacts.settle_OnDelete.
Qed.

Lemma deleteTask_once_witness :
  sent (exec deleteTask (exec (handleDelete Samples.row) (mount 0)))
  = sent (mount 0) ++ [(now (mount 0), DeleteTask (VStr "7f3a"))].
Proof.
  apply (proj1 (proj2 (proj2 (proj2 deleteTask_once)))
           (mount 0) Samples.row (VStr "7f3a")).
  vm_compute. reflexivity.
Defined.

(** A row without a uuid of its own but with a [__proto__] entry: the copy
    has no such own property and takes the entry as its prototype, so the
    delete carries the uuid found there. *)
Example handleDelete_odd_row :
  own (data.selectedData (vm (exec (handleDelete Samples.odd_row) (mount 0))))
  = {[ "user" := VStr "ann" ]}
  ∧ sent (exec deleteTask (exec (handleDelete Samples.odd_row) (mount 0)))
    = [(0, GetTaskList (VNum 1)); (0, DeleteTask (VStr "evil"))].
Proof. split; vm_compute; reflexivity. Qed.

(** C3, as the code has it: the notification [Task Deleted] is shown when
    the delete request succeeds and only then; a failing request shows
    nothing; in both outcomes the two dialog flags are cleared. *)
Theorem deleteTask_notice (w : World) (p : nat) :
  pending w !! p = Some OnDelete →
  (∀ response,
      outcome_seen (settle p (Fulfilled response) w)
      = (messages w ++ [task_deleted], false, false))
  ∧ (∀ reason,
        outcome_seen (settle p (Rejected reason) w) = (messages w, false, false)).
Proof.
  intros Hp. split; intros x; rewrite ViewFacts.settle_OnDelete by done.
  - reflexivity.
  - unfold outcome_seen. cbn. by rewrite app_nil_r.
Qed.

Lemma deleteTask_notice_witness :
  outcome_seen (settle 1 (Rejected VNull) Samples.confirming)
  = (messages Samples.confirming, false, false).
Proof.
  apply (proj2 (deleteTask_notice Samples.confirming 1%nat
                  ltac:(vm_compute; reflexivity)) VNull).
Defined.

(** C3 as stated fails: with the delete of the sample row confirmed, the
    request that succeeds shows [Task Deleted], the request that fails shows
    nothing, so what the user sees differs. *)
Lemma deleteTask_rejected_differs :
  pending Samples.confirming !! 1%nat = Some OnDelete
  ∧ messages (settle 1 (Fulfilled VNull) Samples.confirming) = [task_deleted]
  ∧ messages (settle 1 (Rejected VNull) Samples.confirming) = []
  ∧ outcome_seen (settle 1 (Fulfilled VNull) Samples.confirming)
    ≠ outcome_seen (settle 1 (Rejected VNull) Samples.confirming).
Proof.
  split_and!; try (vm_compute; reflexivity).
  vm_compute. discriminate.
Qed.

(** C6: the view fetches the current page when it is created, at [t0].
    Each tick moves the clock by one millisecond; left alone, the view has
    after [3000 k + r] milliseconds ([r] below 3000) fetched at [t0],
    [t0 + 3000], ..., [t0 + 3000 k] and at no other time.  Whatever else
    happens, as long as the view is not destroyed the timer fetches the
    current page exactly at the ticks that fall on a multiple of three
    seconds after [t0]; and once [beforeDestroy] has run, no tick ever
    fetches again. *)
Theorem polling_schedule (t0 : Z) :
  sent (mount t0) = [(t0, GetTaskList (VNum 1))]
  ∧ (∀ w : World, now (tick w) = now w + 1)
  ∧ (∀ k r : nat,
        (r < 3000)%nat →
        now (run (replicate (3000 * k + r) Tick) (mount t0))
        = t0 + Z.of_nat (3000 * k + r)
        ∧ sent (run (replicate (3000 * k + r) Tick) (mount t0))
          = poll_times t0 k)
  ∧ (∀ es : list event,
        alive es = true →
        now (run es (mount t0)) = t0 + Z.of_nat (Trace.ticks es)
        ∧ sent (tick (run es (mount t0)))
          = sent (run es (mount t0))
            ++ (if decide ((now (run es (mount t0)) + 1 - t0) `mod` 3000 = 0)
                then [(now (run es (mount t0)) + 1,
                       GetTaskList (data.listQuery_page (vm (run es (mount t0)))))]
                else []))
  ∧ (∀ es es' : list event,
        sent (tick (run (es ++ Destroy :: es') (mount t0)))
        = sent (run (es ++ Destroy :: es') (mount t0))).
Proof.
  split_and!.
  - reflexivity.
  - apply ViewFacts.tick_now.
  - intros k r Hr. rewrite replicate_add, ViewFacts.run_app.
    destruct (ViewFacts.ticks_periods t0 k) as (Hs & Ht & Hn & _).
    destruct (ViewFacts.ticks_quiet r _ _ _ Ht ltac:(lia)) as (-> & _ & -> & _).
    rewrite Hs, Hn. split; [lia|done].
  - intros es Hes. split.
    { rewrite ViewFacts.run_now. by change (now (mount t0)) with t0. }
    destruct (ViewFacts.run_polling t0 es (mount t0))
      as (h & d & k & _ & Ht & -> & Hnow);
      [by apply ViewFacts.alive_no_destroy|apply ViewFacts.mount_polling|].
    destruct (ViewFacts.tick_sent _ h _ Ht) as (-> & _). f_equal.
    destruct (decide (t0 + 3000 * k = now (run es (mount t0)) + 1)) as [Heq|Hne].
    + rewrite decide_True; [done|]. rewrite <- Heq.
      replace (t0 + 3000 * k - t0) with (k * 3000) by lia.
      apply Z.mod_mul. lia.
    + rewrite decide_False; [done|]. intros Hmod.
      apply Z.mod_divide in Hmod as [j Hj]; lia.
  - intros es es'. rewrite ViewFacts.run_app, ViewFacts.run_cons.
    apply ViewFacts.tick_no_timer, ViewFacts.run_no_timer.
    destruct (ViewFacts.run_polling_or_none t0 es (mount t0)) as [Hinv|Hnone].
    + left. apply ViewFacts.mount_polling.
    + by apply (ViewFacts.destroy_polling t0).
    + by apply ViewFacts.step_no_timer.
Qed.

Lemma polling_schedule_witness :
  now (run (replicate (3000 * 2 + 5) Tick) (mount 0)) = 0 + Z.of_nat (3000 * 2 + 5)
  ∧ sent (run (replicate (3000 * 2 + 5) Tick) (mount 0))
    = [(0, GetTaskList (VNum 1)); (3000, GetTaskList (VNum 1));
       (6000, GetTaskList (VNum 1))].
Proof.
  apply (proj1 (proj2 (proj2 (polling_schedule 0))) 2%nat 5%nat). lia.
Defined.

(** C10: a call of [getList] changes no data, and the settling of its
    request changes only [list], [total] and [listLoading]: the selected row,
    the dialog flags, the query, the notifications and the requests stay.
    So after [handleDelete row], whatever happens short of another click on
    a row's Delete (ticks, fetches, responses that replace the list), the
    stored copy is still the one made when the dialog was opened, and a
    confirmed delete sends the uuid that [row] had then (for a row without
    a uuid of its own, what the copy inherited then). *)
Theorem selected_row_kept :
  (∀ w : World, same_but_requests w (exec getList w))
  ∧ (∀ (w : World) (p : nat) (s : settlement),
        pending w !! p = Some OnList →
        data.selectedData (vm (settle p s w)) = data.selectedData (vm w)
        ∧ data.deleteDialogVisible (vm (settle p s w))
          = data.deleteDialogVisible (vm w)
        ∧ data.deleteDialogLoading (vm (settle p s w))
          = data.deleteDialogLoading (vm w)
        ∧ data.listQuery_page (vm (settle p s w)) = data.listQuery_page (vm w)
        ∧ data.listQuery_limit (vm (settle p s w)) = data.listQuery_limit (vm w)
        ∧ sent (settle p s w) = sent w
        ∧ messages (settle p s w) = messages w
        ∧ ∃ l t,
            settle p s w
            = update (data.set_listLoading false)
                (update (data.set_total t)
                   (update (data.set_list l)
                      (set_pending (delete p (pending w)) w))))
  ∧ (∀ (w : World) (row : gmap string value) (uuid : value) (es : list event),
        keeps_selection es = true →
        row !! "uuid" = Some uuid →
        data.selectedData (vm (run es (exec (handleDelete row) w)))
        = Object_assign row
        ∧ own (data.selectedData (vm (run es (exec (handleDelete row) w))))
            !! "uuid" = Some uuid
        ∧ sent (exec deleteTask (run es (exec (handleDelete row) w)))
          = sent (run es (exec (handleDelete row) w))
            ++ [(now (run es (exec (handleDelete row) w)), DeleteTask uuid)])
  ∧ ∀ (w : World) (row : gmap string value) (es : list event),
      keeps_selection es = true →
      data.selectedData (vm (run es (exec (handleDelete row) w)))
      = data.selectedData (vm (exec (handleDelete row) w))
      ∧ (∀ k : string,
            k ≠ "__proto__" →
            own (data.selectedData (vm (run es (exec (handleDelete row) w))))
              !! k = row !! k)
      ∧ sent (exec deleteTask (run es (exec (handleDelete row) w)))
        = sent (run es (exec (handleDelete row) w))
          ++ [(now (run es (exec (handleDelete row) w)),
               DeleteTask
                 match row !! "uuid" with
                 | Some uuid => uuid
                 | None =>
                     match row !! "__proto__" with
                     | Some (VObj parent) => default VUndefined (parent !! "uuid")
                     | _ => VUndefined
                     end
                 end)].
Proof.
  split_and!.
  - intros w. by repeat split.
  - intros w p s Hp.
    destruct (ViewFacts.settle_OnList w p s Hp) as (l & t & Heq).
    rewrite Heq. split_and!; try done. by exists l, t.
  - intros w row uuid es Hes Hu.
    assert (data.selectedData (vm (run es (exec (handleDelete row) w)))
            = Object_assign row) as Hsel.
    { by rewrite ViewFacts.run_selectedData
        by by apply ViewFacts.keeps_selection_no_click. }
    assert (own (Object_assign row) !! "uuid" = Some uuid) as Hown.
    { unfold Object_assign. cbn [own]. by rewrite lookup_delete_ne. }
    split_and!; [done|by rewrite Hsel|].
    rewrite ViewFacts.sent_deleteTask, Hsel. unfold object_get.
    cbn [prop_name]. by rewrite Hown.
  - intros w row es Hes.
    assert (data.selectedData (vm (run es (exec (handleDelete row) w)))
            = Object_assign row) as Hsel.
    { by rewrite ViewFacts.run_selectedData
        by by apply ViewFacts.keeps_selection_no_click. }
    split_and!.
    + by rewrite Hsel.
    + intros k Hk. rewrite Hsel. unfold Object_assign. cbn [own].
      by rewrite lookup_delete_ne.
    + by rewrite ViewFacts.sent_deleteTask, Hsel, ViewFacts.object_get_assign.
Qed.

Lemma selected_row_kept_witness :
  data.selectedData
    (vm (run [Tick; Settle 0 (Fulfilled Samples.response)]
             (exec (handleDelete Samples.row) (mount 0))))
  = Object_assign Samples.row
  ∧ own (data.selectedData
           (vm (run [Tick; Settle 0 (Fulfilled Samples.response)]
                    (exec (handleDelete Samples.row) (mount 0)))))
      !! "uuid" = Some (VStr "7f3a")
  ∧ sent (exec deleteTask
            (run [Tick; Settle 0 (Fulfilled Samples.response)]
                 (exec (handleDelete Samples.row) (mount 0))))
    = sent (run [Tick; Settle 0 (Fulfilled Samples.response)]
                (exec (handleDelete Samples.row) (mount 0)))
      ++ [(now (run [Tick; Settle 0 (Fulfilled Samples.response)]
                    (exec (handleDelete Samples.row) (mount 0))),
           DeleteTask (VStr "7f3a"))].
Proof.
  apply (proj1 (proj2 (proj2 selected_row_kept)) (mount 0) Samples.row
           (VStr "7f3a")
           [Tick; Settle 0 (Fulfilled Samples.response)]).
  - reflexivity.
  - vm_compute. reflexivity.
Defined.

(** Six seconds of a mounted view: fetches at 0, 3000 and 6000 ms; after
    the destruction six more seconds add none. *)
Example polling_six_seconds :
  sent (run (replicate 6000 Tick) (mount 0))
  = [(0, GetTaskList (VNum 1)); (3000, GetTaskList (VNum 1));
     (6000, GetTaskList (VNum 1))]
  ∧ sent (run (replicate 6000 Tick ++ Destroy :: replicate 6000 Tick) (mount 0))
    = sent (run (replicate 6000 Tick) (mount 0)).
Proof. split; vm_compute; reflexivity. Qed.

End ViewClaims.

(** ** The matcher finds exactly what the expression matches *)

Module LanguageFacts.
Import Regex Language.

Lemma iter_suffix (R : list char → list char → Prop) :
  (∀ x y, R x y → ∃ pre, x = pre ++ y) →
  ∀ n x y, iter R n x y → ∃ pre, x = pre ++ y.
Proof.
  intros HR. induction n as [|n IH]; intros x y H; simpl in H.
  - exists []. by subst.
  - destruct H as (z & Hxz & Hzy).
    destruct (HR _ _ Hxz) as (pre & ->). destruct (IH _ _ Hzy) as (pre' & ->).
    exists (pre ++ pre'). by rewrite app_assoc.
Qed.

Lemma Matches_suffix input r x y :
  Matches input r x y → ∃ pre, x = pre ++ y.
Proof.
  revert x y.
  induction r as [|a| |neg items|r1 IH1 r2 IH2|r1 IH1 r2 IH2|r IH min max| |];
    intros x y H; simpl in H.
  - exists []. by subst.
  - exists [a]. by subst.
  - destruct H as (b & -> & _). by exists [b].
  - destruct H as (b & -> & _). by exists [b].
  - destruct H as (z & H1 & H2).
    destruct (IH1 _ _ H1) as (pre & ->). destruct (IH2 _ _ H2) as (pre' & ->).
    exists (pre ++ pre'). by rewrite app_assoc.
  - destruct H as [H|H]; eauto.
  - destruct H as (n & _ & _ & H). by eapply iter_suffix.
  - destruct H as [-> _]. by exists [].
  - destruct H as [-> ->]. by exists [].
Qed.

Lemma Matches_length input r x y :
  Matches input r x y → (length y ≤ length x)%nat.
Proof.
  intros (pre & ->)%Matches_suffix. rewrite length_app. lia.
Qed.

(** A match that leaves as much as it found has consumed nothing. *)
Lemma Matches_same_length input r x y :
  Matches input r x y → length y = length x → y = x.
Proof.
  intros (pre & ->)%Matches_suffix. rewrite length_app. intros Hlen.
  destruct pre; [done|]. simpl in Hlen. lia.
Qed.

Lemma within_pred n max : within (S n) max → within n (dec_max max).
Proof. destruct max as [[|k]|]; simpl; lia. Qed.

Lemma within_succ n max :
  max ≠ Some O → within n (dec_max max) → within (S n) max.
Proof. destruct max as [[|k]|]; simpl; (done || lia). Qed.

Lemma within_le n n' max : (n ≤ n')%nat → within n' max → within n max.
Proof. destruct max; simpl; lia. Qed.

Section Repeat.

Variable input : list char.
Variable r : regex.
Variable m : matcher_fn.
Hypothesis m_spec :
  ∀ x c, m x c = true ↔ ∃ y, Matches input r x y ∧ c y = true.

Lemma repeat_greedy_Matches fuel max x c :
  repeat_greedy m fuel max x c = true →
  ∃ n y, within n max ∧ iter (Matches input r) n x y ∧ c y = true.
Proof using m_spec.
  revert max x. induction fuel as [|fuel IH]; intros max x H; simpl in H.
  - assert (c x = true ∨ m x (λ _, false) = true) as [Hc|Hm].
    { destruct max as [[|?]|]; [by left| |];
        apply orb_true_iff in H as [?|?]; auto. }
    + exists O, x. split_and!; [|done..]. destruct max; simpl; lia.
    + apply m_spec in Hm as (? & _ & ?). done.
  - set (d := λ y, if (length y =? length x)%nat then false
                   else repeat_greedy m fuel (dec_max max) y c) in H.
    assert (c x = true ∨ (max ≠ Some O ∧ m x d = true)) as [Hc|[Hmax Hm]].
    { destruct max as [[|?]|]; [by left| |];
        apply orb_true_iff in H as [?|?]; auto. }
    + exists O, x. split_and!; [|done..]. destruct max; simpl; lia.
    + apply m_spec in Hm as (z & Hxz & Hd). unfold d in Hd.
      destruct (length z =? length x)%nat; [done|].
      apply IH in Hd as (n & y & Hn & Hit & Hc).
      exists (S n), y. split_and!; [by apply within_succ| |done].
      simpl. eauto.
Qed.

Lemma Matches_repeat_greedy n :
  ∀ fuel max x y c,
    (length x ≤ fuel)%nat → within n max →
    iter (Matches input r) n x y → c y = true →
    repeat_greedy m fuel max x c = true.
Proof using m_spec.
  induction n as [|n IH]; intros fuel max x y c Hfuel Hn Hit Hc.
  - simpl in Hit. subst y.
    destruct fuel; simpl; destruct max as [[|?]|]; rewrite ?Hc, ?orb_true_r; done.
  - destruct Hit as (z & Hxz & Hit).
    destruct (decide (length z = length x)) as [Hlen|Hlen].
    + apply Matches_same_length in Hxz; [|done]. subst z.
      apply (IH fuel max x y c); [done| |done..].
      eapply within_le; [|exact Hn]. lia.
    + pose proof (Matches_length _ _ _ _ Hxz) as Hle.
      destruct fuel as [|fuel]; [lia|].
      assert (max ≠ Some O) as Hmax by (intros ->; simpl in Hn; lia).
      assert (m x (λ y0, if (length y0 =? length x)%nat then false
                         else repeat_greedy m fuel (dec_max max) y0 c) = true)
        as Hm.
      { apply m_spec. exists z. split; [done|].
        rewrite (proj2 (Nat.eqb_neq _ _)) by done.
        apply (IH fuel (dec_max max) z y c); [lia|by apply within_pred|done..]. }
      simpl. destruct max as [[|?]|]; [done| |]; by rewrite Hm.
Qed.

Lemma RepeatMatcher_Matches min :
  ∀ max x c,
    within min max →
    RepeatMatcher m min max x c = true ↔
    ∃ n y, (min ≤ n)%nat ∧ within n max
           ∧ iter (Matches input r) n x y ∧ c y = true.
Proof using m_spec.
  induction min as [|min IH]; intros max x c Hwf.
  - split.
    + intros H. simpl in H.
      assert (c x = true ∨ repeat_greedy m (length x) max x c = true)
        as [Hc|Hg] by (destruct max as [[|?]|]; auto).
      * exists O, x. split_and!; [done| |done..]. destruct max; simpl; lia.
      * apply repeat_greedy_Matches in Hg as (n & y & ? & ? & ?).
        exists n, y. split_and!; (done || lia).
    + intros (n & y & _ & Hn & Hit & Hc). simpl.
      destruct max as [[|k]|].
      * simpl in Hn. assert (n = O) as -> by lia. simpl in Hit. by subst.
      * by apply (Matches_repeat_greedy n _ _ _ y).
      * by apply (Matches_repeat_greedy n _ _ _ y).
  - assert (max ≠ Some O) as Hmax by (intros ->; simpl in Hwf; lia).
    assert (RepeatMatcher m (S min) max x c
            = m x (λ y, RepeatMatcher m min (dec_max max) y c)) as ->.
    { simpl. by destruct max as [[|?]|]. }
    rewrite m_spec. split.
    + intros (z & Hxz & H). apply IH in H; [|by apply within_pred].
      destruct H as (n & y & ? & ? & ? & ?).
      exists (S n), y. split_and!; [lia|by apply within_succ| |done].
      simpl. eauto.
    + intros (n & y & Hmin & Hn & Hit & Hc).
      destruct n as [|n]; [lia|]. destruct Hit as (z & Hxz & Hit).
      exists z. split; [done|]. apply IH; [by apply within_pred|].
      exists n, y. split_and!; [lia|by apply within_pred|done..].
Qed.

End Repeat.

(** The matcher succeeds exactly when the expression has a match that the
    continuation accepts. *)
Lemma matcher_Matches input r :
  wf r = true →
  ∀ x c, matcher input r x c = true ↔ ∃ y, Matches input r x y ∧ c y = true.
Proof.
  induction r as [|a| |neg items|r1 IH1 r2 IH2|r1 IH1 r2 IH2|r IH min max| |];
    intros Hwf x c; simpl in Hwf |- *.
  - split; [eauto|]. by intros (y & -> & ?).
  - destruct x as [|b x]; simpl.
    + split; [done|]. by intros (? & ? & ?).
    + rewrite andb_true_iff, N.eqb_eq. split.
      * intros [-> ?]. eauto.
      * intros (y & [= -> ->] & ?). done.
  - destruct x as [|b x]; simpl.
    + split; [done|]. by intros (? & (? & ? & ?) & ?).
    + rewrite andb_true_iff, negb_true_iff. split.
      * intros [? ?]. eauto.
      * intros (y & (b' & [= -> ->] & ?) & ?). done.
  - destruct x as [|b x]; simpl.
    + split; [done|]. by intros (? & (? & ? & ?) & ?).
    + rewrite andb_true_iff. split.
      * intros [? ?]. eauto.
      * intros (y & (b' & [= -> ->] & ?) & ?). done.
  - apply andb_true_iff in Hwf as [Hwf1 Hwf2].
    rewrite IH1 by done. split.
    + intros (z & H1 & H2). apply IH2 in H2 as (y & ? & ?); [|done]. eauto.
    + intros (y & (z & H1 & H2) & Hc). exists z. split; [done|].
      apply IH2; [done|]. eauto.
  - apply andb_true_iff in Hwf as [Hwf1 Hwf2].
    rewrite orb_true_iff, IH1, IH2 by done. split.
    + intros [(y & ? & ?)|(y & ? & ?)]; eauto.
    + intros (y & [?|?] & ?); eauto.
  - apply andb_true_iff in Hwf as [Hwf1 Hwf2].
    rewrite (RepeatMatcher_Matches input r (matcher input r) (IH Hwf1)).
    + split.
      * intros (n & y & ? & ? & ? & ?). exists y. split; [|done]. eauto.
      * intros (y & (n & ? & ? & ?) & ?). eauto 10.
    + destruct max as [k|]; simpl; [|done]. by apply Nat.leb_le.
  - rewrite andb_true_iff, Nat.eqb_eq. split.
    + intros [? ?]. eauto.
    + intros (y & [-> ?] & ?). done.
  - destruct x as [|b x].
    + split; [eauto|]. by intros (y & [_ ->] & ?).
    + split; [done|]. by intros (y & [? _] & ?).
Qed.

(** [test] on a pattern that starts with [^]: the rest of the pattern
    matches at the start of the input. *)
Lemma test_Bol r input :
  wf r = true →
  test (Seq Bol r) input = true ↔ ∃ y, Matches input r input y.
Proof.
  intros Hwf. unfold test. rewrite existsb_exists. split.
  - intros (i & Hi & H). apply in_seq in Hi.
    apply (matcher_Matches input (Seq Bol r)) in H; [|done].
    destruct H as (y & (z & [<- Hlen] & Hr) & _).
    rewrite length_drop in Hlen.
    assert (drop i input = input) as Heq.
    { destruct i; [done|]. destruct input; [done|]. simpl in *. lia. }
    rewrite Heq in Hr. eauto.
  - intros (y & Hr). exists O. split; [apply in_seq; simpl; lia|].
    apply (matcher_Matches input (Seq Bol r)); [done|].
    exists y. split; [|done]. exists input. by rewrite drop_0.
Qed.

End LanguageFacts.

(** ** The patterns of [validate.js], read as languages *)

Module PatternFacts.
Import Regex Language LanguageFacts Validate.

Lemma Matches_lit input l x y : Matches input (lit l) x y ↔ x = l ++ y.
Proof.
  revert x. induction l as [|a l IH]; intros x; [done|].
  destruct l as [|a' l]; [done|].
  change (lit (a :: a' :: l)) with (Seq (Char a) (lit (a' :: l))). simpl Matches at 1.
  split.
  - intros (z & -> & Hz). apply IH in Hz. by subst.
  - intros ->. exists ((a' :: l) ++ y). split; [done|]. by apply IH.
Qed.

Lemma Matches_Opt input r x y :
  Matches input (Opt r) x y ↔ x = y ∨ Matches input r x y.
Proof.
  unfold Opt. simpl. split.
  - intros (n & _ & Hn & H). destruct n as [|[|n]]; [by left| |lia].
    destruct H as (z & ? & <-). by right.
  - intros [->|H].
    + exists O. split_and!; simpl; (done || lia).
    + exists 1%nat. split_and!; simpl; [lia..|]. eauto.
Qed.

(** Iterating an expression that takes one character from a set takes a
    run of characters from that set. *)
Lemma iter_single (R : list char → list char → Prop) (p : char → bool) :
  (∀ x y, R x y ↔ ∃ b, x = b :: y ∧ p b = true) →
  ∀ n x y, iter R n x y ↔
           ∃ run, length run = n ∧ Forall (λ b, p b = true) run ∧ x = run ++ y.
Proof.
  intros HR. induction n as [|n IH]; intros x y; simpl.
  - split.
    + intros ->. by exists [].
    + intros (run & Hlen & _ & ->). by destruct run.
  - split.
    + intros (z & (b & -> & Hb)%HR & (run & Hlen & Hrun & ->)%IH).
      exists (b :: run). split_and!; simpl; [lia|by constructor|done].
    + intros (run & Hlen & Hrun & ->). destruct run as [|b run]; [done|].
      apply Forall_cons in Hrun as [Hb Hrun].
      exists (run ++ y). split; [apply HR; eauto|].
      apply IH. exists run. split_and!; (done || (simpl in Hlen; lia)).
Qed.

Lemma Matches_Class input neg items x y :
  Matches input (Class neg items) x y
  ↔ ∃ b, x = b :: y ∧ consumes (Class neg items) b = true.
Proof. done. Qed.

Lemma Matches_Plus_Class input neg items x y :
  Matches input (Plus (Class neg items)) x y
  ↔ ∃ run, run ≠ [] ∧ Forall (λ b, consumes (Class neg items) b = true) run
           ∧ x = run ++ y.
Proof.
  unfold Plus. simpl Matches. split.
  - intros (n & Hn & _ & H).
    apply (iter_single _ _ (Matches_Class input neg items)) in H
      as (run & Hlen & Hrun & ->).
    exists run. split_and!; [|done..]. intros ->. simpl in Hlen. lia.
  - intros (run & Hne & Hrun & ->). exists (length run). split_and!.
    + destruct run; [done|]. simpl. lia.
    + done.
    + apply (iter_single _ _ (Matches_Class input neg items)). eauto.
Qed.

Lemma isExternal_iff (path : list char) :
  isExternal path = true
  ↔ str "http:" `prefix_of` path ∨ str "https:" `prefix_of` path
    ∨ str "mailto:" `prefix_of` path ∨ str "tel:" `prefix_of` path.
Proof.
  unfold isExternal, isExternal_re. rewrite test_Bol by done.
  cbn [Matches]. setoid_rewrite Matches_lit. setoid_rewrite Matches_Opt.
  unfold prefix. split.
  - intros (y & [(z & -> & z' & [->|Hs] & Hz')|[->| ->]]).
    + subst z'. left. by exists y.
    + simpl in Hs, Hz'. subst. right. left. by exists y.
    + do 2 right. left. by exists y.
    + do 3 right. by exists y.
  - intros [(y & ->)|[(y & ->)|[(y & ->)|(y & ->)]]]; exists y.
    + left. exists (ch ":" :: y). split; [done|].
      exists (ch ":" :: y). split; [by left|done].
    + left. exists (ch "s" :: ch ":" :: y). split; [done|].
      exists (ch ":" :: y). split; [by right|done].
    + right. by left.
    + right. by right.
Qed.

End PatternFacts.

(** ** [validatePath], read as a shape of strings *)

Module PathFacts.
Import Regex Language LanguageFacts Validate PatternFacts Shapes.

(** Replace the characters written [ch a] by their codes. *)
Ltac codes :=
  repeat match goal with
         | |- context [ch ?a] =>
             let v := eval vm_compute in (ch a) in change (ch a) with v
         end.

Lemma path_char_iff (c : char) :
  consumes path_char c = true ↔ c ≠ slash ∧ ¬ In c forbidden_in_path.
Proof.
  unfold path_char, forbidden_in_path, slash, dquote.
  cbn [consumes existsb item_mem In]. codes.
  rewrite xorb_true_l, negb_true_iff, !orb_false_iff, !N.eqb_neq.
  intuition congruence.
Qed.

Lemma Matches_segment input x y :
  Matches input segment x y
  ↔ ∃ run, run ≠ [] ∧ Forall (λ b, consumes path_char b = true) run
           ∧ (x = run ++ y ∨ x = run ++ slash :: y).
Proof.
  unfold segment. cbn [Matches]. setoid_rewrite Matches_Opt.
  setoid_rewrite (Matches_Plus_Class input). split.
  - intros (z & (run & Hne & Hrun & ->) & [->|Hopt]); exists run;
      split_and!; auto.
    simpl in Hopt. subst. auto.
  - intros (run & ? & ? & [->| ->]).
    + exists y. split; [|by left]. by exists run.
    + exists (slash :: y). split; [|by right]. by exists run.
Qed.

Lemma scan_run run rest ps sn :
  run ≠ [] → Forall (λ b, consumes path_char b = true) run →
  scan ps sn (run ++ rest) = scan false true rest.
Proof.
  revert ps sn. induction run as [|c run IH]; intros ps sn Hne Hrun; [done|].
  apply Forall_cons in Hrun as [Hc Hrun]. cbn [scan app].
  destruct (N.eqb_spec c slash) as [->|_].
  { apply path_char_iff in Hc as [? _]. done. }
  rewrite Hc. cbn [andb]. destruct run as [|c' run]; [done|]. by apply IH.
Qed.

Lemma segments_scan input n :
  ∀ x ps sn, iter (Matches input segment) (S n) x [] → scan ps sn x = true.
Proof.
  induction n as [|n IH]; intros x ps sn (z & Hseg & Hrest);
    apply Matches_segment in Hseg as (run & Hne & Hrun & [->| ->]);
    rewrite scan_run by done.
  - simpl in Hrest. by subst.
  - simpl in Hrest. by subst.
  - by apply IH.
  - cbn [scan]. rewrite N.eqb_refl. cbn [negb andb]. by apply IH.
Qed.

Lemma scan_segments input (x : list char) :
  ∀ p, consumes path_char p = true → scan false true x = true →
       ∃ n, iter (Matches input segment) (S n) (p :: x) [].
Proof.
  remember (length x) as k eqn:Hk. revert x Hk.
  induction k as [k IH] using lt_wf_ind. intros x -> p Hp Hscan.
  assert (∀ rest n, iter (Matches input segment) n rest [] →
                    iter (Matches input segment) (S n) (p :: rest) []) as Hone.
  { intros rest n Hrest. exists rest. split; [|done].
    apply Matches_segment. exists [p]. split_and!; [done|by constructor|by left]. }
  assert (∀ rest n, iter (Matches input segment) n rest [] →
                    iter (Matches input segment) (S n) (p :: slash :: rest) [])
    as Hslash.
  { intros rest n Hrest. exists rest. split; [|done].
    apply Matches_segment. exists [p]. split_and!; [done|by constructor|by right]. }
  destruct x as [|c x]; [exists O; by apply Hone|].
  cbn [scan negb andb] in Hscan. destruct (N.eqb_spec c slash) as [->|Hc].
  - cbn [scan negb andb] in Hscan. destruct x as [|c' x]; [exists O; by apply Hslash|].
    cbn [scan negb andb] in Hscan. destruct (N.eqb_spec c' slash) as [->|Hc']; [done|].
    apply andb_true_iff in Hscan as [Hok Hscan].
    destruct (IH (length x) ltac:(simpl; lia) x eq_refl c' Hok Hscan) as (n & Hn).
    exists (S n). by apply Hslash.
  - apply andb_true_iff in Hscan as [Hok Hscan].
    destruct (IH (length x) ltac:(simpl; lia) x eq_refl c Hok Hscan) as (n & Hn).
    exists (S n). by apply Hone.
Qed.

(** The pattern and the one-pass reading agree. *)
Lemma validatePath_scan (path : list char) :
  validatePath path = scan false false path.
Proof.
  apply eq_true_iff_eq.
  unfold validatePath, validatePath_re. rewrite test_Bol by done.
  change (Seq (Plus path_char) (Opt (Char (ch "/")))) with segment.
  cbn [Matches]. setoid_rewrite Matches_Opt. split.
  - intros (y & z & Hopt & z' & (n & Hn & _ & Hit) & -> & ->).
    destruct n as [|n]; [lia|].
    destruct Hopt as [->|Hopt].
    + by eapply segments_scan.
    + simpl in Hopt. subst. cbn [scan]. rewrite N.eqb_refl. cbn [negb andb].
      by eapply segments_scan.
  - intros Hscan. exists [].
    destruct path as [|c x]; [done|]. cbn [scan negb andb] in Hscan.
    destruct (N.eqb_spec c slash) as [->|Hc].
    + cbn [scan negb andb] in Hscan. destruct x as [|c' x]; [done|].
      cbn [scan negb andb] in Hscan. destruct (N.eqb_spec c' slash) as [->|Hc']; [done|].
      apply andb_true_iff in Hscan as [Hok Hscan].
      destruct (scan_segments (slash :: c' :: x) x c' Hok Hscan) as (n & Hn).
      exists (c' :: x). split; [by right|].
      exists []. split; [|done]. exists (S n). split_and!; [lia|done..].
    + apply andb_true_iff in Hscan as [Hok Hscan].
      destruct (scan_segments (c :: x) x c Hok Hscan) as (n & Hn).
      exists (c :: x). split; [by left|].
      exists []. split; [|done]. exists (S n). split_and!; [lia|done..].
Qed.

Lemma scan_iff (path : list char) :
  ∀ ps sn,
    scan ps sn path = true
    ↔ Forall (λ c, ¬ In c forbidden_in_path) path
      ∧ (sn = true ∨ ∃ c, In c path ∧ c ≠ slash)
      ∧ (ps = true → path !! 0%nat ≠ Some slash)
      ∧ (∀ i : nat, path !! i = Some slash → path !! S i ≠ Some slash).
Proof.
  induction path as [|c x IH]; intros ps sn.
  - simpl. split.
    + intros ->. split_and!; [constructor|by left|done|done].
    + intros (_ & [?|(c & [] & _)] & _). done.
  - cbn [scan]. destruct (N.eqb_spec c slash) as [->|Hc].
    + rewrite andb_true_iff, negb_true_iff, IH. split.
      * intros (Hps & Hall & Hsn & Hhead & Hadj). split_and!.
        -- constructor; [|done]. unfold forbidden_in_path, slash. simpl.
           intuition discriminate.
        -- destruct Hsn as [?|(c & ? & ?)]; [by left|]. right. exists c.
           split; [by right|done].
        -- intros ->. done.
        -- intros [|i]; simpl; [intros _; by apply Hhead|apply Hadj].
      * intros (Hall & Hsn & Hhead & Hadj).
        apply Forall_cons in Hall as [_ Hall]. split_and!.
        -- destruct ps; [|done]. by destruct Hhead.
        -- done.
        -- destruct Hsn as [?|(c & [<-|?] & ?)]; [by left|done|]. right. eauto.
        -- intros _. by apply (Hadj O).
        -- intros i. apply (Hadj (S i)).
    + rewrite andb_true_iff, path_char_iff, IH. split.
      * intros ((_ & Hok) & Hall & _ & _ & Hadj). split_and!.
        -- by constructor.
        -- right. exists c. split; [by left|done].
        -- simpl. intros _ [=]. done.
        -- intros [|i]; simpl; [intros [=]; done|apply Hadj].
      * intros (Hall & _ & _ & Hadj).
        apply Forall_cons in Hall as [Hok Hall]. split_and!; try done.
        -- by left.
        -- intros i. apply (Hadj (S i)).
Qed.

End PathFacts.

(** ** [validateEmail], read as a grammar of addresses *)

Module EmailFacts.
Import Regex Language LanguageFacts Validate PatternFacts Shapes PathFacts.

Lemma iter_words (R : list char → list char → Prop)
    (P : list char → Prop) (f : list char → list char) :
  (∀ x y, R x y ↔ ∃ w, P w ∧ x = f w ++ y) →
  ∀ n x y, iter R n x y ↔
           ∃ ws, length ws = n ∧ Forall P ws ∧ x = concat (f <$> ws) ++ y.
Proof.
  intros HR. induction n as [|n IH]; intros x y; simpl.
  - split.
    + intros ->. by exists [].
    + intros (ws & Hlen & _ & ->). by destruct ws.
  - split.
    + intros (z & (w & Hw & ->)%HR & (ws & Hlen & Hws & ->)%IH).
      exists (w :: ws). split_and!; simpl; [lia|by constructor|].
      by rewrite app_assoc.
    + intros (ws & Hlen & Hws & ->). destruct ws as [|w ws]; [done|].
      apply Forall_cons in Hws as [Hw Hws].
      exists (concat (f <$> ws) ++ y). split.
      * apply HR. exists w. split; [done|]. simpl. by rewrite app_assoc.
      * apply IH. exists ws. split_and!; (done || (simpl in Hlen; lia)).
Qed.

Lemma Matches_Char input a x y :
  Matches input (Char a) x y ↔ ∃ b, x = b :: y ∧ consumes (Char a) b = true.
Proof.
  simpl. split.
  - intros ->. exists a. by rewrite N.eqb_refl.
  - intros (b & -> & ->%N.eqb_eq). done.
Qed.

Lemma Matches_Any input x y :
  Matches input Any x y ↔ ∃ b, x = b :: y ∧ consumes Any b = true.
Proof.
  simpl. split; intros (b & -> & Hb); exists b; split; try done.
  - by rewrite Hb.
  - by apply negb_true_iff.
Qed.

(** A quantifier over a one-character expression takes a run whose length
    is within the bounds. *)
Lemma Matches_Repeat_single input r min max x y :
  (∀ x y, Matches input r x y ↔ ∃ b, x = b :: y ∧ consumes r b = true) →
  Matches input (Repeat r min max) x y
  ↔ ∃ run, (min ≤ length run)%nat ∧ within (length run) max
           ∧ Forall (λ b, consumes r b = true) run ∧ x = run ++ y.
Proof.
  intros Hr. cbn [Matches]. split.
  - intros (n & Hmin & Hmax & (run & <- & Hrun & ->)%(iter_single _ _ Hr)).
    by exists run.
  - intros (run & Hmin & Hmax & Hrun & ->). exists (length run).
    split_and!; [done..|]. apply (iter_single _ _ Hr). eauto.
Qed.

Lemma Matches_Plus_word input neg items x y :
  Matches input (Plus (Class neg items)) x y
  ↔ ∃ w, word (Class neg items) w ∧ x = w ++ y.
Proof.
  rewrite Matches_Plus_Class. unfold word. split.
  - intros (run & ? & ? & ->). by exists run.
  - intros (w & [? ?] & ->). by exists w.
Qed.

Lemma dotted_labels (w : list char) (ws : list (list char)) (tld : list char) :
  concat ((λ l, l ++ [dot]) <$> (w :: ws)) ++ tld = dotted w (ws ++ [tld]).
Proof.
  unfold dotted. revert w. induction ws as [|v ws IH]; intros w.
  - simpl. by rewrite !app_nil_r, <- app_assoc.
  - specialize (IH v). rewrite fmap_cons, concat_cons. rewrite <- !app_assoc.
    rewrite IH. simpl. done.
Qed.

Lemma Matches_Seq input r1 r2 x y :
  Matches input (Seq r1 r2) x y ↔ ∃ z, Matches input r1 x z ∧ Matches input r2 z y.
Proof. done. Qed.

Lemma Matches_Alt input r1 r2 x y :
  Matches input (Alt r1 r2) x y ↔ Matches input r1 x y ∨ Matches input r2 x y.
Proof. done. Qed.

Lemma Matches_Repeat input r min max x y :
  Matches input (Repeat r min max) x y
  ↔ ∃ n, (min ≤ n)%nat ∧ within n max ∧ iter (Matches input r) n x y.
Proof. done. Qed.

Lemma Matches_atom_word input x y :
  Matches input (Plus email_atom) x y ↔ ∃ w, word email_atom w ∧ x = w ++ y.
Proof. apply Matches_Plus_word. Qed.

Lemma Matches_label_word input x y :
  Matches input (Plus label_char) x y ↔ ∃ w, word label_char w ∧ x = w ++ y.
Proof. apply Matches_Plus_word. Qed.

Lemma Matches_dot_atom input x y :
  Matches input (Seq (Char dot) (Plus email_atom)) x y
  ↔ ∃ v, word email_atom v ∧ x = (dot :: v) ++ y.
Proof.
  rewrite Matches_Seq. split.
  - intros (z & -> & (v & Hv & ->)%Matches_atom_word). by exists v.
  - intros (v & Hv & ->). exists (v ++ y). split; [done|].
    apply Matches_atom_word. by exists v.
Qed.

Lemma Matches_label_dot input x y :
  Matches input (Seq (Plus label_char) (Char dot)) x y
  ↔ ∃ v, word label_char v ∧ x = (v ++ [dot]) ++ y.
Proof.
  rewrite Matches_Seq. split.
  - intros (z & (v & Hv & ->)%Matches_label_word & ->). exists v.
    by rewrite <- app_assoc.
  - intros (v & Hv & ->). exists (dot :: y). split; [|done].
    apply Matches_label_word. exists v. by rewrite <- app_assoc.
Qed.

Lemma Matches_email_local input x y :
  Matches input email_local x y ↔ ∃ l, local_part l ∧ x = l ++ y.
Proof.
  unfold email_local, local_part. rewrite Matches_Alt, !Matches_Seq. split.
  - intros [(z & (w & Hw & ->)%Matches_atom_word & Hit)
           |(z & -> & z' & Hq & ->)].
    + apply Matches_Repeat in Hit as (n & _ & _ & Hit).
      apply (iter_words _ _ _ (Matches_dot_atom input)) in Hit
        as (ws & _ & Hws & ->).
      exists (dotted w ws). split; [|unfold dotted; by rewrite app_assoc].
      left. exists w, ws. split; [by constructor|done].
    + apply (Matches_Repeat_single _ _ _ _ _ _ (Matches_Any input)) in Hq
        as (q & Hlen & _ & Hq & ->).
      exists (dquote :: q ++ [dquote]). split.
      * right. exists q. split_and!; [| |done].
        -- intros ->. simpl in Hlen. lia.
        -- eapply Forall_impl; [exact Hq|]. simpl. intros ?.
           by rewrite negb_true_iff.
      * simpl. by rewrite <- app_assoc.
  - intros (l & [(w & ws & Hall & ->)|(q & Hne & Hq & ->)] & ->).
    + apply Forall_cons in Hall as [Hw Hws]. left.
      exists (concat ((λ v, dot :: v) <$> ws) ++ y). split.
      * apply Matches_atom_word. exists w. split; [done|].
        unfold dotted. by rewrite app_assoc.
      * apply Matches_Repeat. exists (length ws). split_and!; [lia|done|].
        apply (iter_words _ _ _ (Matches_dot_atom input)). by exists ws.
    + right. exists (q ++ dquote :: y).
      split; [simpl; by rewrite <- app_assoc|].
      exists (dquote :: y). split; [|done].
      apply (Matches_Repeat_single _ _ _ _ _ _ (Matches_Any input)).
      exists q. split_and!; [| done | | done].
      * destruct q; [done|]. simpl. lia.
      * eapply Forall_impl; [exact Hq|]. simpl. intros ?.
        by rewrite negb_true_iff.
Qed.

Lemma Matches_octet input x y :
  Matches input octet x y ↔ ∃ o, octet_word o ∧ x = o ++ y.
Proof.
  unfold octet, digit, octet_word.
  rewrite (Matches_Repeat_single input _ _ _ _ _ (Matches_Class input _ _)).
  simpl within. split.
  - intros (run & ? & ? & ? & ->). by exists run.
  - intros (o & [[? ?] ?] & ->). by exists o.
Qed.

Lemma Matches_tld input x y :
  Matches input (Repeat letter 2 None) x y
  ↔ ∃ tld, (2 ≤ length tld)%nat ∧ Forall (λ c, consumes letter c = true) tld
           ∧ x = tld ++ y.
Proof.
  unfold letter.
  rewrite (Matches_Repeat_single input _ _ _ _ _ (Matches_Class input _ _)).
  split.
  - intros (run & ? & _ & ? & ->). by exists run.
  - intros (tld & ? & ? & ->). by exists tld.
Qed.

Lemma Matches_quad input x y :
  Matches input
    (Seq (Char (ch "["))
      (Seq octet (Seq (Char (ch "."))
      (Seq octet (Seq (Char (ch "."))
      (Seq octet (Seq (Char (ch "."))
      (Seq octet (Char (ch "]")))))))))) x y
  ↔ ∃ o1 o2 o3 o4,
      octet_word o1 ∧ octet_word o2 ∧ octet_word o3 ∧ octet_word o4
      ∧ x = (ch "[" :: o1 ++ dot :: o2 ++ dot :: o3 ++ dot :: o4 ++ [ch "]"]) ++ y.
Proof.
  rewrite !Matches_Seq. split.
  - intros (? & -> & ? & (o1 & H1 & ->)%Matches_octet
              & ? & -> & ? & (o2 & H2 & ->)%Matches_octet
              & ? & -> & ? & (o3 & H3 & ->)%Matches_octet
              & ? & -> & ? & (o4 & H4 & ->)%Matches_octet & ->).
    exists o1, o2, o3, o4. split_and!; [done..|].
    repeat first [rewrite <- app_assoc | progress cbn [app]]. reflexivity.
  - intros (o1 & o2 & o3 & o4 & H1 & H2 & H3 & H4 & ->).
    replace ((ch "[" :: o1 ++ dot :: o2 ++ dot :: o3 ++ dot :: o4 ++ [ch "]"]) ++ y)
      with (ch "[" :: o1 ++ dot :: o2 ++ dot :: o3 ++ dot :: o4 ++ ch "]" :: y)
      by (repeat first [rewrite <- app_assoc | progress cbn [app]]; reflexivity).
    eexists. split; [reflexivity|].
    eexists. split; [apply Matches_octet; exists o1; split; [done|reflexivity]|].
    eexists. split; [reflexivity|].
    eexists. split; [apply Matches_octet; exists o2; split; [done|reflexivity]|].
    eexists. split; [reflexivity|].
    eexists. split; [apply Matches_octet; exists o3; split; [done|reflexivity]|].
    eexists. split; [reflexivity|].
    eexists. split; [apply Matches_octet; exists o4; split; [done|reflexivity]|].
    reflexivity.
Qed.

Lemma Matches_email_domain input x y :
  Matches input email_domain x y ↔ ∃ d, domain_part d ∧ x = d ++ y.
Proof.
  unfold email_domain, domain_part. rewrite Matches_Alt, Matches_quad.
  rewrite Matches_Seq. split.
  - intros [(o1 & o2 & o3 & o4 & H1 & H2 & H3 & H4 & ->)
           |(z & Hit & (tld & Hlen & Htld & ->)%Matches_tld)].
    + eexists. split; [|reflexivity]. left. exists o1, o2, o3, o4. by split_and!.
    + apply Matches_Repeat in Hit as (n & Hn & _ & Hit).
      apply (iter_words _ _ _ (Matches_label_dot input)) in Hit
        as (ws & <- & Hws & ->).
      destruct ws as [|w ws]; [simpl in Hn; lia|].
      exists (dotted w (ws ++ [tld])). split.
      * right. by exists w, ws, tld.
      * by rewrite <- dotted_labels, <- app_assoc.
  - intros (d & [(o1 & o2 & o3 & o4 & H1 & H2 & H3 & H4 & ->)
                |(w & ws & tld & Hall & Hlen & Htld & ->)] & ->).
    + left. exists o1, o2, o3, o4. by split_and!.
    + right. rewrite <- dotted_labels, <- app_assoc.
      exists (tld ++ y). split.
      * apply Matches_Repeat. exists (length (w :: ws)).
        split_and!; [simpl; lia|done|].
        apply (iter_words _ _ _ (Matches_label_dot input)). by exists (w :: ws).
      * apply Matches_tld. by exists tld.
Qed.

(** An accepted address splits at an [@] into a local part and a domain. *)
Lemma validateEmail_Matches (email : list char) :
  validateEmail email = true
  ↔ ∃ d, Matches email email_local email (at_sign :: d)
         ∧ Matches email email_domain d [].
Proof.
  unfold validateEmail, validateEmail_re. rewrite test_Bol by done. split.
  - intros (y & z & Hl & z' & -> & z'' & Hd & -> & ->). by exists z'.
  - intros (d & Hl & Hd). exists [], (at_sign :: d). split; [done|].
    exists d. split; [done|]. by exists [].
Qed.

(** The characters of words joined by dots. *)
Lemma dotted_chars (r : regex) (w : list char) (ws : list (list char)) :
  Forall (word r) (w :: ws) →
  Forall (λ c, consumes r c = true ∨ c = dot) (dotted w ws).
Proof.
  unfold dotted. revert w. induction ws as [|v ws IH]; intros w Hall;
    apply Forall_cons in Hall as [[_ Hw] Hws].
  - simpl. rewrite app_nil_r. eapply Forall_impl; [exact Hw|]. simpl. auto.
  - rewrite fmap_cons, concat_cons. apply Forall_app. split.
    + eapply Forall_impl; [exact Hw|]. simpl. auto.
    + apply (Forall_cons (λ c, consumes r c = true ∨ c = dot)).
      split; [by right|]. by apply IH.
Qed.

(** Character facts, by the codes of the classes. *)
Lemma atom_char_facts (c : char) :
  consumes email_atom c = true →
  white_space c = false ∧ c ≠ at_sign ∧ c ≠ ch ":" ∧ c ≠ dquote.
Proof.
  unfold email_atom, at_sign, dquote. cbn [consumes existsb item_mem]. codes.
  rewrite xorb_true_l, negb_true_iff, !orb_false_iff, !N.eqb_neq.
  intuition congruence.
Qed.

Lemma plain_char_facts (c : char) :
  (48 ≤ c ≤ 57 ∨ 65 ≤ c ≤ 90 ∨ 97 ≤ c ≤ 122
   ∨ c = 45 ∨ c = 46 ∨ c = 91 ∨ c = 93)%N →
  white_space c = false ∧ c ≠ at_sign ∧ c ≠ ch ":" ∧ c ≠ dquote.
Proof.
  intros Hc. unfold white_space, line_terminator, in_list, at_sign, dquote.
  cbn [existsb]. codes.
  rewrite !orb_false_iff, andb_false_iff, !N.eqb_neq, !N.leb_gt. lia.
Qed.

Lemma digit_char_code (c : char) :
  consumes digit c = true → (48 ≤ c ≤ 57)%N.
Proof.
  unfold digit. cbn [consumes existsb item_mem]. codes.
  rewrite xorb_false_l, orb_false_r, andb_true_iff, !N.leb_le. lia.
Qed.

Lemma letter_char_code (c : char) :
  consumes letter c = true → (65 ≤ c ≤ 90 ∨ 97 ≤ c ≤ 122)%N.
Proof.
  unfold letter. cbn [consumes existsb item_mem]. codes.
  rewrite xorb_false_l, orb_false_r, orb_true_iff, !andb_true_iff, !N.leb_le.
  lia.
Qed.

Lemma label_char_code (c : char) :
  consumes label_char c = true →
  (48 ≤ c ≤ 57 ∨ 65 ≤ c ≤ 90 ∨ 97 ≤ c ≤ 122 ∨ c = 45)%N.
Proof.
  unfold label_char. cbn [consumes existsb item_mem]. codes.
  rewrite xorb_false_l, orb_false_r, !orb_true_iff, !andb_true_iff, !N.leb_le,
    N.eqb_eq.
  lia.
Qed.

(** The characters of a local part that is not quoted, and of a domain. *)
Lemma local_part_chars (l : list char) :
  local_part l → l !! 0%nat ≠ Some dquote →
  Forall (λ c, white_space c = false ∧ c ≠ at_sign ∧ c ≠ ch ":" ∧ c ≠ dquote) l.
Proof.
  intros [(w & ws & Hall & ->)|(q & _ & _ & ->)] Hhead; [|done].
  eapply Forall_impl; [by apply dotted_chars|]. simpl.
  intros c [Hc| ->]; [by apply atom_char_facts|].
  apply plain_char_facts. unfold dot. codes. lia.
Qed.

Lemma domain_part_chars (d : list char) :
  domain_part d →
  Forall (λ c, white_space c = false ∧ c ≠ at_sign ∧ c ≠ ch ":" ∧ c ≠ dquote) d.
Proof.
  assert (∀ o, octet_word o → Forall (λ c, white_space c = false ∧ c ≠ at_sign
                                          ∧ c ≠ ch ":" ∧ c ≠ dquote) o) as Hoct.
  { intros o [_ Ho]. eapply Forall_impl; [exact Ho|]. simpl.
    intros c Hc%digit_char_code. apply plain_char_facts. lia. }
  assert (∀ c, c = dot ∨ c = ch "[" ∨ c = ch "]" →
               white_space c = false ∧ c ≠ at_sign ∧ c ≠ ch ":" ∧ c ≠ dquote)
    as Hpunct.
  { intros c Hc. apply plain_char_facts. revert Hc. unfold dot. codes. lia. }
  intros [(o1 & o2 & o3 & o4 & H1 & H2 & H3 & H4 & ->)
         |(w & ws & tld & Hall & _ & Htld & ->)].
  - repeat first [ apply Forall_cons; split; [apply Hpunct; auto|]
                 | apply Forall_app; split; [by apply Hoct|]
                 | apply Forall_nil ]; done.
  - unfold dotted. apply Forall_app. split.
    + apply Forall_cons in Hall as [[_ Hw] _].
      eapply Forall_impl; [exact Hw|]. simpl.
      intros c Hc%label_char_code. apply plain_char_facts. lia.
    + apply Forall_cons in Hall as [_ Hws].
      rewrite fmap_app, concat_app. apply Forall_app. split.
      * induction Hws as [|v ws [_ Hv] _ IH]; [constructor|].
        rewrite fmap_cons, concat_cons.
        apply Forall_cons. split; [apply Hpunct; auto|].
        apply Forall_app. split; [|done].
        eapply Forall_impl; [exact Hv|]. simpl.
        intros c Hc%label_char_code. apply plain_char_facts. lia.
      * simpl. rewrite app_nil_r. apply Forall_cons. split; [apply Hpunct; auto|].
        eapply Forall_impl; [exact Htld|]. simpl.
        intros c Hc%letter_char_code. apply plain_char_facts. lia.
Qed.

(** A list of two elements or more ends with two elements. *)
Lemma last_two {A} (l : list A) :
  (2 ≤ length l)%nat → ∃ pre a b, l = pre ++ [a; b].
Proof.
  intros Hlen. destruct (rev l) as [|b [|a k]] eqn:Hrev.
  - apply (f_equal length) in Hrev. rewrite length_rev in Hrev. simpl in Hrev. lia.
  - apply (f_equal length) in Hrev. rewrite length_rev in Hrev. simpl in Hrev. lia.
  - exists (rev k), a, b. apply (f_equal (@rev A)) in Hrev.
    rewrite rev_involutive in Hrev. rewrite Hrev. simpl.
    by rewrite <- app_assoc.
Qed.

End EmailFacts.

(** ** Runs of the Task view *)

Module TraceFacts.
Import View Trace ViewFacts.

Lemma run_invariant (P : World → Prop) :
  (∀ e w, P w → P (step e w)) → ∀ es w, P w → P (run es w).
Proof.
  intros Hstep. induction es as [|e es IH]; intros w Hw; [done|].
  rewrite run_cons. by apply IH, Hstep.
Qed.

Lemma foldl_getList_preserves {A} (P : World → Prop) (l : list A) :
  (∀ w, P w → P (exec getList w)) →
  ∀ w, P w → P (foldl (λ w _, exec getList w) w l).
Proof.
  intros Hget. induction l as [|a l IH]; intros w Hw; [done|].
  simpl. by apply IH, Hget.
Qed.

(** What a tick preserves: whatever [getList] preserves and neither the
    clock nor the timers enter. *)
Lemma tick_preserves (P : World → Prop) :
  (∀ w t, P w → P (set_now t w)) →
  (∀ w ts, P w → P (set_timers ts w)) →
  (∀ w, P w → P (exec getList w)) →
  ∀ w, P w → P (tick w).
Proof.
  intros Hnow Htimers Hget w Hw. unfold tick.
  apply Htimers, foldl_getList_preserves; [done|]. by apply Hnow.
Qed.

(** The cases of a settlement. *)
Lemma settle_cases (P : World → Prop) (w : World) (p : nat) (s : settlement) :
  (pending w !! p = None → P w) →
  (pending w !! p = Some OnDelete →
   P (update (data.set_deleteDialogVisible false)
        (update (data.set_deleteDialogLoading false)
           (set_messages
              (messages w ++ match s with
                             | Fulfilled _ => [task_deleted]
                             | Rejected _ => []
                             end)
              (set_pending (delete p (pending w)) w))))) →
  (pending w !! p = Some OnList →
   ∀ l t, P (update (data.set_listLoading false)
               (update (data.set_total t)
                  (update (data.set_list l)
                     (set_pending (delete p (pending w)) w))))) →
  P (settle p s w).
Proof.
  intros Hnone Hdelete Hlist. destruct (pending w !! p) as [[|]|] eqn:Hp.
  - destruct (settle_OnList w p s Hp) as (l & t & ->). by apply Hlist.
  - rewrite settle_OnDelete by done. by apply Hdelete.
  - rewrite settle_not_pending by done. by apply Hnone.
Qed.

Lemma step_listLoading (e : event) (w : World) :
  data.listLoading (vm w) = false → data.listLoading (vm (step e w)) = false.
Proof.
  intros Hw. destruct e as [|p s| | | |row|row|b| | |]; try done.
  - change (step Tick w) with (tick w). by rewrite tick_vm.
  - change (step (Settle p s) w) with (settle p s w).
    by apply settle_cases.
  - simpl. rewrite exec_beforeDestroy. by destruct (polling w).
Qed.

Lemma filter_snoc {A} (f : A → bool) (l : list A) (a : A) :
  length (List.filter f (l ++ [a]))
  = (length (List.filter f l) + if f a then 1 else 0)%nat.
Proof.
  rewrite List.filter_app, length_app. simpl. by destruct (f a).
Qed.

Lemma step_deletes (e : event) (w : World) :
  deletes (step e w) = (deletes w + confirms [e])%nat.
Proof.
  destruct e as [|p s| | | |row|row|b| | |]; simpl confirms;
    rewrite ?Nat.add_0_r; try done.
  - change (step Tick w) with (tick w).
    apply (tick_preserves (λ w', deletes w' = deletes w)); try done.
    intros w' <-. rewrite exec_getList. unfold deletes. cbn [sent set_pending set_sent].
    rewrite filter_snoc. simpl. lia.
  - change (step (Settle p s) w) with (settle p s w).
    by apply (settle_cases (λ w', deletes w' = deletes w)).
  - simpl. rewrite exec_getList. unfold deletes. cbn [sent set_pending set_sent].
    rewrite filter_snoc. simpl. lia.
  - simpl. rewrite exec_deleteTask. unfold deletes.
    cbn [sent set_pending set_sent update set_vm].
    rewrite filter_snoc. simpl. lia.
  - simpl. rewrite exec_beforeDestroy. by destruct (polling w).
Qed.

Lemma confirms_cons (e : event) (es : list event) :
  confirms (e :: es) = (confirms [e] + confirms es)%nat.
Proof. by destruct e. Qed.



(** [getList] and [deleteTask] keep promises, requests and spinners in
    agreement. *)
Lemma issue_consistent (w : World) (r : request) (f : data.t → data.t) :
  (data.deleteDialogLoading (f (vm w)) = true →
   data.deleteDialogLoading (vm w) = true ∨ callbacks_of r = OnDelete) →
  (data.listLoading (f (vm w)) = true → data.listLoading (vm w) = true) →
  consistent w →
  consistent (set_pending (<[length (sent w) := callbacks_of r]> (pending w))
                (set_sent (sent w ++ [(now w, r)]) (update f w))).
Proof.
  intros Hf Hg (Hp & Hd & Hl).
  assert (∀ p cb, pending w !! p = Some cb → p ≠ length (sent w)) as Hfresh.
  { intros p cb (t & r' & Hs & _)%Hp ->.
    apply lookup_lt_Some in Hs. lia. }
  split_and!; cbn [pending sent vm set_pending set_sent update set_vm].
  - intros p cb. rewrite lookup_insert. case_decide as Heq.
    + intros [= <-]. subst p. exists (now w), r.
      split; [|done]. by rewrite lookup_app_r, Nat.sub_diag.
    + intros (t & r' & Hs & Hcb)%Hp. exists t, r'. split; [|done].
      rewrite lookup_app_l; [done|]. by eapply lookup_lt_Some.
  - intros [Hold|Hnew]%Hf.
    + destruct (Hd Hold) as (p & Hpd). exists p.
      rewrite lookup_insert_ne; [done|]. intros <-. by eapply Hfresh.
    + exists (length (sent w)). by rewrite lookup_insert_eq, Hnew.
  - intros Hold%Hg. destruct (Hl Hold) as (p & Hpl). exists p.
    rewrite lookup_insert_ne; [done|]. intros <-. by eapply Hfresh.
Qed.

Lemma getList_consistent (w : World) : consistent w → consistent (exec getList w).
Proof.
  intros Hw.
  pose proof (issue_consistent w (GetTaskList (data.listQuery_page (vm w)))
                (λ d, d)) as H.
  rewrite exec_getList. destruct w as [[] ? ? ? ? ? ? ? ?]. apply H; auto.
Qed.

Lemma deleteTask_consistent (w : World) :
  consistent w → consistent (exec deleteTask w).
Proof.
  intros Hw. rewrite exec_deleteTask.
  apply (issue_consistent w
           (DeleteTask (object_get (data.selectedData (vm w)) P_uuid))
           (data.set_deleteDialogLoading true)); auto.
Qed.

Lemma step_consistent (e : event) (w : World) :
  consistent w → consistent (step e w).
Proof.
  intros Hw. destruct e as [|p s|v|v| |row|row|b| | |].
  - change (step Tick w) with (tick w).
    apply tick_preserves; [done|done|apply getList_consistent|done].
  - change (step (Settle p s) w) with (settle p s w).
    destruct Hw as (Hp & Hd & Hl).
    apply settle_cases; [done|intros Hcb|intros Hcb l t];
      (split_and!; cbn [pending sent vm set_pending set_messages update set_vm
                        data.deleteDialogLoading data.listLoading
                        data.set_deleteDialogVisible data.set_deleteDialogLoading
                        data.set_listLoading data.set_total data.set_list];
       [ intros q cb [_ Hq]%lookup_delete_Some; by apply Hp | | ]); try done.
    + intros (q & Hq)%Hl. exists q. rewrite lookup_delete_ne; [done|].
      intros <-. congruence.
    + intros (q & Hq)%Hd. exists q. rewrite lookup_delete_ne; [done|].
      intros <-. congruence.
  - done.
  - done.
  - by apply getList_consistent.
  - done.
  - done.
  - done.
  - done.
  - by apply deleteTask_consistent.
  - simpl. rewrite exec_beforeDestroy. by destruct (polling w).
Qed.

Lemma mount_consistent (t0 : Z) : consistent (mount t0).
Proof.
  split_and!.
  - intros p cb. unfold mount, fresh. cbn. rewrite lookup_insert.
    case_decide as Heq; [|by rewrite lookup_empty].
    intros [= <-]. subst p. by eexists _, _.
  - done.
  - intros _. exists O. unfold mount, fresh. cbn. by rewrite lookup_insert_eq.
Qed.

(** The list requests of a run that starts with the timer armed. *)
Lemma run_fetches (t0 : Z) (es : list event) :
  ∀ w, polling_inv t0 w → alive es = true →
       Z.of_nat (fetches (run es w))
       = Z.of_nat (fetches w) + Z.of_nat (paginations es)
         + ((now w + Z.of_nat (ticks es) - t0) `div` 3000
            - (now w - t0) `div` 3000).
Proof.
  induction es as [|e es IH]; intros w Hw Hes.
  - change (run [] w) with w. cbn [ticks paginations].
    replace (now w + Z.of_nat 0 - t0) with (now w - t0) by lia. lia.
  - rewrite run_cons. simpl in Hes. apply andb_true_iff in Hes as [He Hes].
    assert (e ≠ Destroy) as Hne by (intros ->; done).
    rewrite IH; [|by apply step_polling|done].
    destruct Hw as (h & d & k & Hp & Ht & -> & Hnow).
    destruct e as [|p s|v|v| |row|row|b| | |]; try done;
      cbn [ticks paginations];
      try (change (fetches (step _ w)) with (fetches w);
           change (now (step _ w)) with (now w); lia).
    + change (step Tick w) with (tick w).
      destruct (tick_sent w h _ Ht) as (Hsent & _ & _ & ->).
      replace (now w + 1 + Z.of_nat (ticks es) - t0)
        with (now w + Z.of_nat (S (ticks es)) - t0) by lia.
      assert (Z.of_nat (fetches (tick w))
              = Z.of_nat (fetches w)
                + ((now w + 1 - t0) `div` 3000 - (now w - t0) `div` 3000)) as ->.
      { unfold fetches at 1. rewrite Hsent. case_decide as Hdue.
        - rewrite filter_snoc. simpl. fold (fetches w).
          replace (now w + 1 - t0) with (k * 3000) by lia.
          replace (now w - t0) with ((k - 1) * 3000 + 2999) by lia.
          rewrite Z.div_mul by done.
          rewrite Z.div_add_l by done. change (2999 `div` 3000) with 0. lia.
        - rewrite app_nil_r. fold (fetches w).
          assert ((now w + 1 - t0) `div` 3000 = k - 1) as ->.
          { symmetry. apply (Z.div_unique _ _ _ (now w + 1 - t0 - 3000 * (k - 1)));
              lia. }
          assert ((now w - t0) `div` 3000 = k - 1) as ->.
          { symmetry. apply (Z.div_unique _ _ _ (now w - t0 - 3000 * (k - 1)));
              lia. }
          lia. }
      lia.
    + change (step (Settle p s) w) with (settle p s w).
      assert (fetches (settle p s w) = fetches w ∧ now (settle p s w) = now w)
        as [-> ->] by by apply settle_cases.
      lia.
    + simpl step. rewrite exec_getList. unfold fetches at 1.
      cbn [sent now set_pending set_sent]. rewrite filter_snoc. simpl.
      fold (fetches w). lia.
    + simpl step. rewrite exec_deleteTask. unfold fetches at 1.
      cbn [sent now set_pending set_sent update set_vm].
      rewrite filter_snoc. simpl. fold (fetches w). lia.
Qed.

(** The deletes in flight, as requests are issued and promises settle. *)
Lemma deleting_insert (m : gmap nat callbacks) (i : nat) (cb : callbacks) :
  m !! i = None →
  size (filter (λ kv : nat * callbacks, kv.2 = OnDelete) (<[i:=cb]> m))
  = (size (filter (λ kv : nat * callbacks, kv.2 = OnDelete) m)
     + if decide (cb = OnDelete) then 1 else 0)%nat.
Proof.
  intros Hi. case_decide as Hcb.
  - rewrite map_filter_insert_True by done.
    rewrite map_size_insert_None; [lia|].
    apply map_lookup_filter_None. by left.
  - rewrite map_filter_insert_not' by (simpl; congruence). lia.
Qed.

Lemma deleting_delete (m : gmap nat callbacks) (i : nat) (cb : callbacks) :
  m !! i = Some cb →
  (size (filter (λ kv : nat * callbacks, kv.2 = OnDelete) (delete i m))
   + (if decide (cb = OnDelete) then 1 else 0)
   = size (filter (λ kv : nat * callbacks, kv.2 = OnDelete) m))%nat.
Proof.
  intros Hi. case_decide as Hcb.
  - rewrite map_filter_delete.
    assert (filter (λ kv : nat * callbacks, kv.2 = OnDelete) m !! i = Some cb)
      as Hf by by apply map_lookup_filter_Some.
    rewrite <- (insert_delete_id _ i cb Hf) at 2.
    rewrite map_size_insert_None by apply lookup_delete_eq. lia.
  - rewrite map_filter_delete_not; [lia|].
    intros y Hy. simpl. congruence.
Qed.

Lemma consistent_fresh (w : World) :
  consistent w → pending w !! length (sent w) = None.
Proof.
  intros (Hp & _). destruct (pending w !! length (sent w)) as [cb|] eqn:Hcb;
    [|done].
  apply Hp in Hcb as (t & r & Hs & _). apply lookup_lt_Some in Hs. lia.
Qed.

Lemma getList_accounted (w : World) : accounted w → accounted (exec getList w).
Proof.
  intros (Hc & Hm & Hle). split_and!.
  - by apply getList_consistent.
  - done.
  - rewrite exec_getList. unfold deleting, deletes.
    cbn [pending sent messages set_pending set_sent].
    rewrite deleting_insert by by apply consistent_fresh.
    rewrite filter_snoc. simpl. unfold deleting, deletes in Hle. lia.
Qed.

Lemma deleteTask_accounted (w : World) :
  accounted w → accounted (exec deleteTask w).
Proof.
  intros (Hc & Hm & Hle). split_and!.
  - by apply deleteTask_consistent.
  - done.
  - rewrite exec_deleteTask. unfold deleting, deletes.
    cbn [pending sent messages set_pending set_sent update set_vm].
    rewrite deleting_insert by by apply consistent_fresh.
    rewrite filter_snoc. simpl. unfold deleting, deletes in Hle. lia.
Qed.

Lemma step_accounted (e : event) (w : World) :
  accounted w → accounted (step e w).
Proof.
  intros Hw. destruct e as [|p s|v|v| |row|row|b| | |].
  - change (step Tick w) with (tick w).
    apply tick_preserves; [done|done|apply getList_accounted|done].
  - destruct Hw as (Hc & Hm & Hle). split; [by apply step_consistent|].
    change (step (Settle p s) w) with (settle p s w).
    apply settle_cases; [done|intros Hcb|intros Hcb l t];
      unfold deleting, deletes in *;
      cbn [pending sent messages set_pending set_messages update set_vm].
    + pose proof (deleting_delete _ _ _ Hcb) as Hdel.
      rewrite decide_True in Hdel by done. split.
      * apply Forall_app. split; [done|]. destruct s; by repeat constructor.
      * rewrite length_app. destruct s; simpl; lia.
    + pose proof (deleting_delete _ _ _ Hcb) as Hdel.
      rewrite decide_False in Hdel by done. split; [done|lia].
  - done.
  - done.
  - by apply getList_accounted.
  - done.
  - done.
  - done.
  - done.
  - by apply deleteTask_accounted.
  - simpl. rewrite exec_beforeDestroy. by destruct (polling w).
Qed.

Lemma mount_accounted (t0 : Z) : accounted (mount t0).
Proof.
  split_and!; [apply mount_consistent|constructor|].
  unfold deleting, deletes, mount, fresh. cbn.
  rewrite map_filter_insert_not' by (simpl; (done || (intros ??; done))).
  rewrite map_filter_empty. done.
Qed.

(** Once the view is destroyed no timer is left. *)
Lemma run_destroyed (t0 : Z) (es : list event) :
  ∀ w, polling_inv t0 w ∨ timers w = [] → alive es = false →
       timers (run es w) = [].
Proof.
  induction es as [|e es IH]; intros w Hw Hes; [done|].
  rewrite run_cons. simpl in Hes.
  destruct (event_cases e) as [->|[->|[_ Hne]]].
  - apply IH; [|done]. destruct Hw as [Hw|Hw].
    + left. by apply step_polling.
    + right. by apply step_no_timer.
  - apply run_no_timer. destruct Hw as [Hw|Hw].
    + by apply (destroy_polling t0).
    + by apply step_no_timer.
  - apply IH.
    + destruct Hw as [Hw|Hw].
      * left. by apply step_polling.
      * right. by apply step_no_timer.
    + destruct e; try done.
Qed.

End TraceFacts.

(** ** More on [validate.js]: what the three predicates accept *)

Section ValidateMore.
Import Regex Language Validate Shapes.

(** X1: [isExternal] is true exactly on the strings that start with
    [http:], [https:], [mailto:] or [tel:], in lower case and at the very
    start; what follows the scheme does not matter. *)
Theorem isExternal_schemes (path : list char) :
  isExternal path = true
  ↔ ∃ scheme, In scheme external_schemes ∧ scheme `prefix_of` path.
Proof.
  rewrite PatternFacts.isExternal_iff. unfold external_schemes. split.
  - intros [H|[H|[H|H]]]; eexists; (split; [|exact H]); simpl; auto.
  - intros (scheme & Hin & Hpre). simpl in Hin.
    destruct Hin as [<-|[<-|[<-|[<-|[]]]]]; auto.
Qed.

Lemma isExternal_schemes_witness : isExternal (str "tel:5") = true.
Proof.
  apply (proj2 (isExternal_schemes (str "tel:5"))).
  exists (str "tel:"). split.
  - simpl. auto.
  - exists (str "5"). reflexivity.
Defined.

(** X2: [validatePath] accepts exactly the strings that hold none of the
    characters [* ? < > | : \] and the double quote, hold a character other
    than the slash, and never have two slashes in a row. *)
Theorem validatePath_shape (path : list char) :
  validatePath path = true
  ↔ Forall (λ c, ¬ In c forbidden_in_path) path
    ∧ (∃ c, In c path ∧ c ≠ slash)
    ∧ (∀ i : nat, path !! i = Some slash → path !! S i ≠ Some slash).
Proof.
  rewrite PathFacts.validatePath_scan, PathFacts.scan_iff. split.
  - intros (Hall & [?|Hname] & _ & Hadj); [done|]. by split_and!.
  - intros (Hall & Hname & Hadj). split_and!; [done|by right|done|done].
Qed.

Lemma validatePath_shape_witness : validatePath (str "usr/lib/") = true.
Proof.
  apply (proj2 (validatePath_shape (str "usr/lib/"))). split_and!.
  - repeat constructor; vm_compute; intuition discriminate.
  - exists (ch "u"). split; [simpl; auto|discriminate].
  - intros i. do 8 (destruct i as [|i]; [vm_compute; congruence|]).
    vm_compute. congruence.
Defined.

(** X3: a slash in front changes nothing for a path that does not already
    start with one: absolute and relative paths are judged alike. *)
Theorem validatePath_leading_slash (path : list char) :
  path !! 0%nat ≠ Some slash →
  validatePath (slash :: path) = validatePath path.
Proof.
  intros Hhead. rewrite !PathFacts.validatePath_scan. cbn [scan].
  rewrite N.eqb_refl. cbn [negb andb].
  destruct path as [|c x]; [done|]. cbn [scan].
  destruct (N.eqb_spec c slash) as [->|_]; [by destruct Hhead|done].
Qed.

Lemma validatePath_leading_slash_witness :
  validatePath (slash :: str "a/b") = validatePath (str "a/b").
Proof. apply (validatePath_leading_slash (str "a/b")). discriminate. Defined.

(** X4: a slash at the end changes nothing for a path that does not already
    end with one. *)
Theorem validatePath_trailing_slash (path : list char) :
  last path ≠ Some slash →
  validatePath (path ++ [slash]) = validatePath path.
Proof.
  intros Hlast. rewrite !PathFacts.validatePath_scan.
  assert (∀ x ps sn, last x ≠ Some slash → (x = [] → ps = false) →
                     scan ps sn (x ++ [slash]) = scan ps sn x) as Hscan.
  { clear. induction x as [|c x IH]; intros ps sn Hlast Hps.
    - rewrite (Hps eq_refl). cbn [app scan]. rewrite N.eqb_refl. done.
    - cbn [app scan]. destruct (N.eqb_spec c slash) as [->|_].
      + destruct x as [|c' x]; [done|].
        rewrite IH; [done|by rewrite last_cons_cons in Hlast|done].
      + destruct x as [|c' x]; [|rewrite IH;
          [done|by rewrite last_cons_cons in Hlast|done]].
        cbn [app scan]. rewrite N.eqb_refl. done. }
  by apply Hscan.
Qed.

Lemma validatePath_trailing_slash_witness :
  validatePath (str "a/b" ++ [slash]) = validatePath (str "a/b").
Proof. apply (validatePath_trailing_slash (str "a/b")). discriminate. Defined.

(** X5: [validateEmail] accepts exactly [local@domain] where the local part
    is a dotted sequence of atoms or a quoted string without line break,
    and the domain is a bracketed quad of one to three digits each or
    dotted labels ending in two letters or more. *)
Theorem validateEmail_grammar (email : list char) :
  validateEmail email = true
  ↔ ∃ l d, local_part l ∧ domain_part d ∧ email = l ++ at_sign :: d.
Proof.
  rewrite EmailFacts.validateEmail_Matches. split.
  - intros (d & (l & Hl & Heq)%EmailFacts.Matches_email_local
              & (d' & Hd & ->)%EmailFacts.Matches_email_domain).
    exists l, d'. rewrite app_nil_r in Heq. by split_and!.
  - intros (l & d & Hl & Hd & ->). exists d. split.
    + apply EmailFacts.Matches_email_local. by exists l.
    + apply EmailFacts.Matches_email_domain. exists d. by rewrite app_nil_r.
Qed.

Lemma validateEmail_grammar_witness :
  validateEmail (str "ann.lee" ++ at_sign :: str "[10.0.0.999]") = true.
Proof.
  apply (proj2 (validateEmail_grammar _)).
  exists (str "ann.lee"), (str "[10.0.0.999]"). split_and!; [| |reflexivity].
  - left. exists (str "ann"), [str "lee"]. split; [|reflexivity].
    repeat constructor; discriminate.
  - left. exists (str "10"), (str "0"), (str "0"), (str "999").
    split_and!; [..|reflexivity]; (split; [simpl; lia|repeat constructor]).
Defined.

(** X6: an accepted address that does not start with a double quote holds
    no white space and exactly one [@]. *)
Theorem validateEmail_unquoted (email : list char) :
  validateEmail email = true →
  email !! 0%nat ≠ Some dquote →
  Forall (λ c, white_space c = false) email
  ∧ ∃ l d, email = l ++ at_sign :: d ∧ ¬ In at_sign l ∧ ¬ In at_sign d.
Proof.
  intros (d & (l & Hl & Heq)%EmailFacts.Matches_email_local
            & (d' & Hd & ->)%EmailFacts.Matches_email_domain)%EmailFacts.validateEmail_Matches
         Hhead.
  rewrite app_nil_r in Heq. subst email.
  assert (l !! 0%nat ≠ Some dquote) as Hl0.
  { destruct Hl as [(w & ws & Hall & ->)|(q & _ & _ & ->)]; [|done].
    apply Forall_cons in Hall as [[Hw _] _]. unfold dotted.
    destruct w; [done|]. exact Hhead. }
  pose proof (EmailFacts.local_part_chars l Hl Hl0) as Hlc.
  pose proof (EmailFacts.domain_part_chars d' Hd) as Hdc.
  split.
  - apply Forall_app. split; [|apply Forall_cons; split; [done|]];
      (eapply Forall_impl; [eassumption|]); simpl; tauto.
  - exists l, d'. split_and!; [done| |]; rewrite <- list_elem_of_In;
      intros Hin; eapply Forall_forall in Hin; try eassumption;
      simpl in Hin; tauto.
Qed.

Lemma validateEmail_unquoted_witness :
  Forall (λ c, white_space c = false) (str "a@b.co")
  ∧ ∃ l d, str "a@b.co" = l ++ at_sign :: d ∧ ¬ In at_sign l ∧ ¬ In at_sign d.
Proof.
  apply (validateEmail_unquoted (str "a@b.co")).
  - vm_compute. reflexivity.
  - discriminate.
Defined.

(** X7: every accepted address ends with [\]] or with two letters: a
    top-level domain of one letter, or with a digit, is refused. *)
Theorem validateEmail_ending (email : list char) :
  validateEmail email = true →
  (∃ pre, email = pre ++ [ch "]"])
  ∨ (∃ pre a b, email = pre ++ [a; b]
                ∧ consumes letter a = true ∧ consumes letter b = true).
Proof.
  intros (d & (l & _ & Heq)%EmailFacts.Matches_email_local
            & (d' & Hd & ->)%EmailFacts.Matches_email_domain)%EmailFacts.validateEmail_Matches.
  rewrite app_nil_r in Heq. subst email.
  destruct Hd as [(o1 & o2 & o3 & o4 & _ & _ & _ & _ & ->)
                 |(w & ws & tld & _ & Hlen & Htld & ->)].
  - left. exists (l ++ at_sign :: ch "[" :: o1 ++ dot :: o2 ++ dot :: o3 ++ dot :: o4).
    repeat first [rewrite <- app_assoc | progress cbn [app]]. reflexivity.
  - right. destruct (EmailFacts.last_two tld Hlen) as (pre & a & b & ->).
    apply Forall_app in Htld as [_ Htld].
    apply Forall_cons in Htld as [Ha Htld]. apply Forall_cons in Htld as [Hb _].
    exists (l ++ at_sign :: w ++ concat ((λ v, dot :: v) <$> ws) ++ dot :: pre), a, b.
    split; [|done]. unfold dotted. rewrite fmap_app, concat_app. simpl.
    rewrite app_nil_r.
    repeat first [rewrite <- app_assoc | progress cbn [app]]. reflexivity.
Qed.

Lemma validateEmail_ending_witness :
  (∃ pre, str "a@b.co" = pre ++ [ch "]"])
  ∨ (∃ pre a b, str "a@b.co" = pre ++ [a; b]
                ∧ consumes letter a = true ∧ consumes letter b = true).
Proof. apply (validateEmail_ending (str "a@b.co")). vm_compute. reflexivity. Defined.

(** X8: no string is both an external link and a valid path: every scheme
    brings a colon, which a path must not hold. *)
Theorem external_is_no_path (path : list char) :
  isExternal path = true → validatePath path = false.
Proof.
  intros Hext. apply not_true_is_false. intros Hpath.
  rewrite PathFacts.validatePath_scan, PathFacts.scan_iff in Hpath.
  destruct Hpath as (Hall & _). rewrite Forall_forall in Hall.
  apply (Hall (ch ":")).
  - apply PatternFacts.isExternal_iff in Hext
      as [(y & ->)|[(y & ->)|[(y & ->)|(y & ->)]]];
      apply list_elem_of_In; simpl; auto 10.
  - unfold forbidden_in_path. simpl. auto 10.
Qed.

Lemma external_is_no_path_witness : validatePath (str "https://x") = false.
Proof. apply (external_is_no_path (str "https://x")). vm_compute. reflexivity. Defined.

(** X9: no accepted e-mail address is an external link; in particular an
    address with [mailto:] in front is not accepted as an address. *)
Theorem email_is_not_external (email : list char) :
  validateEmail email = true → isExternal email = false.
Proof.
  intros (d & (l & Hl & Heq)%EmailFacts.Matches_email_local
            & (d' & Hd & ->)%EmailFacts.Matches_email_domain)%EmailFacts.validateEmail_Matches.
  rewrite app_nil_r in Heq. subst email.
  apply not_true_is_false. intros Hext.
  assert (∃ c rest, l ++ at_sign :: d' = c :: rest ∧ c ≠ dquote
                    ∧ In (ch ":") (l ++ at_sign :: d')) as (c & rest & Heq & Hc & Hcolon).
  { apply PatternFacts.isExternal_iff in Hext
      as [(y & Heq)|[(y & Heq)|[(y & Heq)|(y & Heq)]]]; rewrite Heq;
      eexists _, _; (split; [reflexivity|]); (split; [discriminate|]);
      simpl; auto 10. }
  assert (l !! 0%nat ≠ Some dquote) as Hl0.
  { destruct l as [|c' l']; [done|]. simpl in Heq. injection Heq as -> _.
    simpl. congruence. }
  pose proof (EmailFacts.local_part_chars l Hl Hl0) as Hlc.
  pose proof (EmailFacts.domain_part_chars d' Hd) as Hdc.
  apply in_app_or in Hcolon as [Hin|[Hin|Hin]].
  - apply list_elem_of_In in Hin. eapply Forall_forall in Hin; [|exact Hlc].
    simpl in Hin. tauto.
  - discriminate.
  - apply list_elem_of_In in Hin. eapply Forall_forall in Hin; [|exact Hdc].
    simpl in Hin. tauto.
Qed.

Lemma email_is_not_external_witness : isExternal (str "tel@b.co") = false.
Proof. apply (email_is_not_external (str "tel@b.co")). vm_compute. reflexivity. Defined.

End ValidateMore.

(** ** More on the status filters *)

Section FiltersMore.
Import Filters.

(** X10: the two tables cover the same codes: a status has a label exactly
    when it has a severity tag, namely for the codes 0 to 8; no code is ever
    rendered with a member inherited from the prototype. *)
Theorem status_known (status : Z) :
  ((∃ label, statusFilter status = Str label) ↔ 0 ≤ status ≤ 8)
  ∧ ((∃ tag, statusTypeFilter status = Str tag) ↔ 0 ≤ status ≤ 8).
Proof.
  destruct (FiltersFacts.Number_toString_key status) as [Hk Hp].
  assert (¬ 0 ≤ status ≤ 8 → Number_toString status ∉ status_keys)
    as Hout by (intros ? ?%Hk; lia).
  split; split.
  - intros (label & Hl). destruct (decide (0 ≤ status ≤ 8)) as [|Hno]; [done|].
    unfold statusFilter in Hl.
    rewrite FiltersFacts.get_statusMap_other in Hl by auto. done.
  - intros Hin.
    assert (status = 0 ∨ status = 1 ∨ status = 2 ∨ status = 3 ∨ status = 4
            ∨ status = 5 ∨ status = 6 ∨ status = 7 ∨ status = 8)
      as [->|[->|[->|[->|[->|[->|[->|[->| ->]]]]]]]] by lia;
      eexists; vm_compute; reflexivity.
  - intros (tag & Hl). destruct (decide (0 ≤ status ≤ 8)) as [|Hno]; [done|].
    unfold statusTypeFilter in Hl.
    rewrite FiltersFacts.get_statusTypeMap_other in Hl by auto. done.
  - intros Hin.
    assert (status = 0 ∨ status = 1 ∨ status = 2 ∨ status = 3 ∨ status = 4
            ∨ status = 5 ∨ status = 6 ∨ status = 7 ∨ status = 8)
      as [->|[->|[->|[->|[->|[->|[->|[->| ->]]]]]]]] by lia;
      eexists; vm_compute; reflexivity.
Qed.

Lemma status_known_witness : ∃ tag, statusTypeFilter 6 = Str tag.
Proof. apply (proj2 (proj2 (status_known 6))). lia. Defined.

(** X11: the label tells the status: two different codes that have a label
    have different labels.  (The severity tag does not tell them apart: 0
    and 4 share [info].) *)
Theorem statusFilter_injective (a b : Z) :
  a ≠ b → statusFilter a ≠ Undefined → statusFilter a ≠ statusFilter b.
Proof.
  intros Hab Hdef Heq.
  destruct (FiltersFacts.Number_toString_key a) as [Hka Hpa].
  destruct (FiltersFacts.Number_toString_key b) as [Hkb Hpb].
  assert (0 ≤ a ≤ 8) as Ha.
  { destruct (decide (0 ≤ a ≤ 8)) as [|Hno]; [done|]. destruct Hdef.
    apply FiltersFacts.get_statusMap_other; [|done]. intros ?%Hka. lia. }
  assert (0 ≤ b ≤ 8) as Hb.
  { destruct (decide (0 ≤ b ≤ 8)) as [|Hno]; [done|]. destruct Hdef.
    rewrite Heq. apply FiltersFacts.get_statusMap_other; [|done].
    intros ?%Hkb. lia. }
  assert (a = 0 ∨ a = 1 ∨ a = 2 ∨ a = 3 ∨ a = 4 ∨ a = 5 ∨ a = 6 ∨ a = 7 ∨ a = 8)
    as [->|[->|[->|[->|[->|[->|[->|[->| ->]]]]]]]] by lia;
    (assert (b = 0 ∨ b = 1 ∨ b = 2 ∨ b = 3 ∨ b = 4 ∨ b = 5 ∨ b = 6 ∨ b = 7 ∨ b = 8)
      as [->|[->|[->|[->|[->|[->|[->|[->| ->]]]]]]]] by lia);
    first [done | vm_compute in Heq; discriminate].
Qed.

Lemma statusFilter_injective_witness : statusFilter 3 ≠ statusFilter 6.
Proof.
  apply (statusFilter_injective 3 6).
  - lia.
  - vm_compute. discriminate.
Defined.

End FiltersMore.

(** ** More on the Task view: what a run keeps and counts *)

Section ViewMore.
Import View Trace.

(** X12: the loading flag of the table is cleared once and for all: no
    method sets [listLoading] again, so once it is false it stays false
    through every later event, also while later fetches are in flight. *)
Theorem listLoading_stays_false (es : list event) (w : World) :
  data.listLoading (vm w) = false →
  data.listLoading (vm (run es w)) = false.
Proof.
  revert w. induction es as [|e es IH]; intros w Hw; [done|].
  rewrite ViewFacts.run_cons. by apply IH, TraceFacts.step_listLoading.
Qed.

Lemma listLoading_stays_false_witness :
  data.listLoading
    (vm (run [Pagination; Tick; ClickConfirm]
             (settle 0 (Rejected VNull) (mount 0)))) = false.
Proof.
  apply (listLoading_stays_false [Pagination; Tick; ClickConfirm]
           (settle 0 (Rejected VNull) (mount 0))).
  vm_compute. reflexivity.
Defined.

(** X13: the table changes only when a list request succeeds: every other
    event (a tick, a click, a failed response, the outcome of a delete)
    leaves [list] and [total] as they are; a deleted task stays in the table
    until a later fetch. *)
Theorem list_changes_on_response_only (e : event) (w : World) :
  (∀ p response,
      e = Settle p (Fulfilled response) → pending w !! p ≠ Some OnList) →
  data.list (vm (step e w)) = data.list (vm w)
  ∧ data.total (vm (step e w)) = data.total (vm w).
Proof.
  intros He. destruct e as [|p s| | | |row|row|b| | |]; try done.
  - change (step Tick w) with (tick w). by rewrite ViewFacts.tick_vm.
  - change (step (Settle p s) w) with (settle p s w).
    destruct (pending w !! p) as [[|]|] eqn:Hp.
    + destruct s as [response|reason]; [by destruct (He p response)|].
      unfold settle. by rewrite Hp.
    + by rewrite ViewFacts.settle_OnDelete.
    + by rewrite ViewFacts.settle_not_pending.
  - simpl. rewrite ViewFacts.exec_beforeDestroy. by destruct (polling w).
Qed.

Lemma list_changes_on_response_only_witness :
  data.list (vm (step (Settle 1 (Fulfilled VNull)) Samples.confirming))
  = data.list (vm Samples.confirming)
  ∧ data.total (vm (step (Settle 1 (Fulfilled VNull)) Samples.confirming))
    = data.total (vm Samples.confirming).
Proof.
  apply (list_changes_on_response_only (Settle 1 (Fulfilled VNull))
           Samples.confirming).
  intros p response [= <- _]. vm_compute. discriminate.
Defined.

(** X14: of two list requests in flight, the response that settles last
    decides what is shown, whichever request was sent first: a late answer
    to an older request overwrites the newer data. *)
Theorem last_response_wins (w : World) (p q : nat)
    (response_p response_q payload_q : value) :
  p ≠ q →
  pending w !! p = Some OnList →
  pending w !! q = Some OnList →
  getp response_q P_payload = Return payload_q →
  payload_q ≠ VUndefined → payload_q ≠ VNull →
  data.list (vm (settle q (Fulfilled response_q)
                   (settle p (Fulfilled response_p) w)))
  = field payload_q P_entry
  ∧ data.total (vm (settle q (Fulfilled response_q)
                      (settle p (Fulfilled response_p) w)))
    = field payload_q P_count.
Proof.
  intros Hne Hp Hq Hpayload Hu Hn.
  destruct (ViewFacts.settle_OnList w p (Fulfilled response_p) Hp)
    as (l & t & ->).
  set (w1 := update _ _).
  assert (pending w1 !! q = Some OnList) as Hq1.
  { subst w1. cbn. by rewrite lookup_delete_ne. }
  unfold settle. rewrite Hq1. simpl on_then. simpl on_finally.
  by rewrite (ViewFacts.exec_getList_then_ok response_q payload_q).
Qed.

Lemma last_response_wins_witness :
  data.list (vm (settle 0 (Fulfilled Samples.response)
                   (settle 1 (Fulfilled VNull) (exec getList (mount 0)))))
  = field Samples.payload P_entry
  ∧ data.total (vm (settle 0 (Fulfilled Samples.response)
                      (settle 1 (Fulfilled VNull) (exec getList (mount 0)))))
    = field Samples.payload P_count.
Proof.
  apply (last_response_wins (exec getList (mount 0)) 1 0 VNull
           Samples.response Samples.payload).
  - lia.
  - vm_compute. reflexivity.
  - vm_compute. reflexivity.
  - reflexivity.
  - discriminate.
  - discriminate.
Defined.

(** X15: delete requests are sent by confirmations and by nothing else,
    one for each click on the dialog's Delete: over any run the number of
    delete requests grows by the number of confirmations. *)
Theorem deletes_counted (es : list event) (w : World) :
  deletes (run es w) = (deletes w + confirms es)%nat.
Proof.
  revert w. induction es as [|e es IH]; intros w.
  - change (run [] w) with w. simpl. lia.
  - rewrite ViewFacts.run_cons, IH, TraceFacts.step_deletes.
    rewrite (TraceFacts.confirms_cons e es). lia.
Qed.

(** X16: a view mounted at [t0] and not destroyed has sent, after any run,
    one list request for its creation, one for each pagination event and
    one for every full three seconds that have passed. *)
Theorem fetches_counted (t0 : Z) (es : list event) :
  alive es = true →
  Z.of_nat (fetches (run es (mount t0)))
  = 1 + Z.of_nat (paginations es) + Z.of_nat (ticks es) `div` 3000.
Proof.
  intros Hes.
  rewrite (TraceFacts.run_fetches t0 es (mount t0)
             (ViewFacts.mount_polling t0) Hes).
  change (now (mount t0)) with t0. change (fetches (mount t0)) with 1%nat.
  replace (t0 + Z.of_nat (ticks es) - t0) with (Z.of_nat (ticks es)) by lia.
  replace (t0 - t0) with 0 by lia. change (0 `div` 3000) with 0. lia.
Qed.

Lemma fetches_counted_witness :
  Z.of_nat (fetches (run [Tick; Pagination; Tick] (mount 0)))
  = 1 + Z.of_nat (paginations [Tick; Pagination; Tick])
    + Z.of_nat (ticks [Tick; Pagination; Tick]) `div` 3000.
Proof. apply (fetches_counted 0 [Tick; Pagination; Tick]). reflexivity. Defined.

(** X17: in every state a mounted view reaches, a pending promise belongs
    to a request that was sent, and its callbacks are those of the request's
    kind: the list callbacks never run on the answer to a delete, nor the
    delete callbacks on a list. *)
Theorem pending_matches_sent (t0 : Z) (es : list event) (p : nat) (cb : callbacks) :
  pending (run es (mount t0)) !! p = Some cb →
  ∃ t r, sent (run es (mount t0)) !! p = Some (t, r) ∧ callbacks_of r = cb.
Proof.
  revert p cb.
  apply (TraceFacts.run_invariant consistent TraceFacts.step_consistent es
           (mount t0) (TraceFacts.mount_consistent t0)).
Qed.

Lemma pending_matches_sent_witness :
  ∃ t r, sent (run [ClickConfirm] (mount 0)) !! 1%nat = Some (t, r)
         ∧ callbacks_of r = OnDelete.
Proof.
  apply (pending_matches_sent 0 [ClickConfirm] 1 OnDelete).
  vm_compute. reflexivity.
Defined.

(** X18: in every state a mounted view reaches, a spinner that shows has a
    request of its kind in flight: the dialog's Delete button is loading
    only while a delete is pending, the table only while a list request
    is. *)
Theorem spinner_has_request (t0 : Z) (es : list event) :
  (data.deleteDialogLoading (vm (run es (mount t0))) = true →
   ∃ p, pending (run es (mount t0)) !! p = Some OnDelete)
  ∧ (data.listLoading (vm (run es (mount t0))) = true →
     ∃ p, pending (run es (mount t0)) !! p = Some OnList).
Proof.
  apply (TraceFacts.run_invariant consistent TraceFacts.step_consistent es
           (mount t0) (TraceFacts.mount_consistent t0)).
Qed.

Lemma spinner_has_request_witness :
  ∃ p, pending (run [ClickConfirm; Tick] (mount 0)) !! p = Some OnDelete.
Proof.
  apply (proj1 (spinner_has_request 0 [ClickConfirm; Tick])).
  vm_compute. reflexivity.
Defined.


(** X20: [beforeDestroy] stops the timer but cancels no request: the
    promises in flight stay pending, and a list response that arrives after
    the teardown still writes [list] and [total]. *)
Theorem teardown_keeps_requests (w : World) (p : nat) (response payload : value) :
  pending w !! p = Some OnList →
  getp response P_payload = Return payload →
  payload ≠ VUndefined → payload ≠ VNull →
  pending (step Destroy w) = pending w
  ∧ data.list (vm (settle p (Fulfilled response) (step Destroy w)))
    = field payload P_entry
  ∧ data.total (vm (settle p (Fulfilled response) (step Destroy w)))
    = field payload P_count.
Proof.
  intros Hp Hpayload Hu Hn.
  assert (pending (step Destroy w) = pending w) as Hsame.
  { simpl. rewrite ViewFacts.exec_beforeDestroy. by destruct (polling w). }
  split; [done|]. unfold settle. rewrite Hsame, Hp.
  simpl on_then. simpl on_finally.
  by rewrite (ViewFacts.exec_getList_then_ok response payload).
Qed.

Lemma teardown_keeps_requests_witness :
  pending (step Destroy (mount 0)) = pending (mount 0)
  ∧ data.list (vm (settle 0 (Fulfilled Samples.response) (step Destroy (mount 0))))
    = field Samples.payload P_entry
  ∧ data.total (vm (settle 0 (Fulfilled Samples.response) (step Destroy (mount 0))))
    = field Samples.payload P_count.
Proof.
  apply (teardown_keeps_requests (mount 0) 0 Samples.response Samples.payload).
  - vm_compute. reflexivity.
  - reflexivity.
  - discriminate.
  - discriminate.
Defined.

(** X22: the interval that [created] registers is the only one the view
    ever has, its handle stays in [this.polling], and [beforeDestroy]
    clears it: while the view lives there is exactly one timer, of three
    seconds, and once it is destroyed there is none, whatever follows. *)
Theorem timers_never_leak (t0 : Z) (es : list event) :
  (alive es = true →
   ∃ h d, polling (run es (mount t0)) = Some h
          ∧ timers (run es (mount t0)) = [(h, {| due := d; delay := 3000 |})])
  ∧ (alive es = false → timers (run es (mount t0)) = []).
Proof.
  split; intros Hes.
  - destruct (ViewFacts.run_polling t0 es (mount t0))
      as (h & d & k & Hp & Ht & _);
      [by apply ViewFacts.alive_no_destroy|apply ViewFacts.mount_polling|].
    by exists h, d.
  - apply (TraceFacts.run_destroyed t0); [|done].
    left. apply ViewFacts.mount_polling.
Qed.

Lemma timers_never_leak_witness :
  timers (run [Tick; Destroy; Pagination; Tick] (mount 0)) = [].
Proof.
  apply (proj2 (timers_never_leak 0 [Tick; Destroy; Pagination; Tick])).
  reflexivity.
Defined.

(** X23: the only notification the view shows is [Task Deleted], and it
    never shows more of them than it has sent delete requests: one request
    gives at most one notification. *)
Theorem notices_bounded (t0 : Z) (es : list event) :
  Forall (λ n, n = task_deleted) (messages (run es (mount t0)))
  ∧ (length (messages (run es (mount t0))) ≤ deletes (run es (mount t0)))%nat.
Proof.
  destruct (TraceFacts.run_invariant accounted TraceFacts.step_accounted es
              (mount t0) (TraceFacts.mount_accounted t0)) as (_ & Hm & Hle).
  split; [done|lia].
Qed.

End ViewMore.

(** ** [api/user.js] *)

Section UserApiMore.
Import UserApi.

(** X21: whatever their arguments, the five user calls go to five different
    endpoints: no two of them share both method and URL, so the server can
    tell them apart without looking at the body. *)
Theorem user_api_endpoints (login_data email password token signup_data : value) :
  NoDup (endpoint <$> configs login_data email password token signup_data).
Proof.
  vm_compute.
  repeat (apply NoDup_cons; split;
          [ let H := fresh in
            intros H;
            repeat (apply elem_of_cons in H as [H|H]; [discriminate|]);
            by apply elem_of_nil in H | ]).
  apply NoDup_nil_2.
Qed.

End UserApiMore.
